(** * Hyperliquid funding-rate arbitrage bot: a shallow embedding of [main.py]

    The bot polls the exchange for funding rates, ranks the markets by the
    magnitude of their annualized rate and opens a two-legged hedge (spot
    order, then perpetual order) for every market over the threshold that it
    does not hold yet.

    Python values are embedded as follows.
    - [float] is an IEEE 754 binary64 number: Rocq's primitive [float], whose
      operations are the ones of the hardware Python uses.
    - [int] is [Z]; [str] is [string]; a [dict] keyed by strings is a [gmap].
    - An exception is a [None] result of the body of the [try] block that
      catches it; what the body changed before raising is kept.
    - Everything the bot does to the outside (log records, order
      submissions, sleeps) is appended to the [trace] of the state.
    - The builtins [float] and [str], the order endpoint, the clock and the
      arrangement [list.sort] leaves a list with NaN keys in are parameters
      of the bot.
    - Memory is unbounded and the process is not interrupted. *)

From Stdlib Require Import ZArith Floats Ascii.
From stdpp Require Import gmap strings list pretty sorting.

Set Warnings "-inexact-float,-clear-no-such-hyp".
Local Open Scope Z_scope.

(** ** Data *)

(** The [Market] dataclass. *)
Module Market.
Record t := make {
  symbol : string;
  perp_asset_id : Z;
  spot_asset_id : Z;
  funding_rate : float;
  mark_price : float;
  size_decimals : Z;
}.

(** [Market(symbol=.., perp_asset_id=.., spot_asset_id=.., size_decimals=..)]:
    the two quotes take their defaults [0.0]. *)
Definition new (symbol : string) (perp_asset_id spot_asset_id size_decimals : Z) : t :=
  make symbol perp_asset_id spot_asset_id 0%float 0%float size_decimals.

(** [market.funding_rate = v] and [market.mark_price = v]. *)
Definition set_funding_rate (v : float) (m : t) : t :=
  make (symbol m) (perp_asset_id m) (spot_asset_id m) v (mark_price m) (size_decimals m).
Definition set_mark_price (v : float) (m : t) : t :=
  make (symbol m) (perp_asset_id m) (spot_asset_id m) (funding_rate m) v (size_decimals m).
End Market.

(** An entry of [perp_meta['universe']]. *)
Module Perp.
Record t := make { name : string; szDecimals : Z }.
End Perp.

(** An entry of [spot_meta['universe']]. *)
Module Spot.
Record t := make { name : string; index : Z }.
End Spot.

(** An entry of [contexts[1]]: both quotes arrive as text. *)
Module Ctx.
Record t := make { funding : string; markPx : string }.
End Ctx.

(** The answer to [metaAndAssetCtxs]: the names of [contexts[0]['universe']]
    and the list [contexts[1]]. *)
Record Contexts := { universe : list string; asset_ctxs : list Ctx.t }.

(** The dictionaries appended to [opportunities]. A [Market] object is
    created once per symbol and stored under that symbol, so the reference
    kept under ['market'] is modelled by the key of the object in
    [self.markets]: reading through it sees later updates. *)
Module Opp.
Record t := make {
  symbol : string;
  funding_rate : float;
  mark_price : float;
  market : string;
}.
End Opp.

(** The dictionaries stored in [self.active_positions]. *)
Module Position.
Record t := make {
  entry_time : Z;
  funding_rate : float;
  mark_price : float;
  amount : float;
  market : string;
}.
End Position.

(** The [order] dictionary of [_place_order], with the keys of the wire
    format; the entry [t], always [{"limit": {"tif": "Gtc"}}], is kept as
    its time in force [tif]. *)
Module Order.
Record t := make { a : Z; b : bool; p : string; s : string; r : bool; tif : string }.
End Order.

(** What [response.json()] can hold, as far as the bot looks at it: [null], a
    value that is not an object (with its truth value), or an object with its
    ['status'] entry when that entry is a string. *)
Inductive Json :=
| JNull
| JOther (truthy : bool)
| JObject (status : option string).

(** [x.get('status') == 'ok'] on an object. *)
Definition status_ok (status : option string) : bool :=
  bool_decide (status = Some "ok"%string).

(** The exchange acknowledged the order as accepted. *)
Definition accepted (reply : option Json) : bool :=
  match reply with
  | Some (JObject status) => status_ok status
  | _ => false
  end.

(** The answer has a [get] method: it is an object. *)
Definition is_object (reply : option Json) : bool :=
  match reply with
  | Some (JObject _) => true
  | _ => false
  end.

Inductive Level := INFO | ERROR.

(** The log records of the program, one constructor per call of [logger],
    carrying the values the message is formatted from. *)
Inductive Message :=
| MsgInitialized (n : nat)
| MsgRequestFailed
| MsgFetchFailed
| MsgAttempting (symbol : string)
| MsgFundingRate (funding_rate : float)
| MsgTradeSize (formatted_amount symbol : string) (usd : float)
| MsgSpotFailed
| MsgPerpFailed
| MsgOpened (symbol : string)
| MsgExecuteError
| MsgOrderError
| MsgCloseError
| MsgNoOpportunities
| MsgTop
| MsgTopEntry (symbol : string) (funding_rate : float)
| MsgFound (symbol : string) (funding_rate : float)
| MsgExecuted (symbol : string)
| MsgNotExecuted (symbol : string).

Inductive Event :=
| Log (level : Level) (msg : Message)
| Post (order : Order.t)
| Sleep (seconds : Z).

(** The bot object together with what it has done so far. *)
Record State := {
  min_funding_rate : float;
  position_size_usd : float;
  max_slippage : float;
  active_positions : gmap string Position.t;
  markets : gmap string Market.t;
  trace : list Event;
}.

Definition emit (e : Event) (st : State) : State :=
  {| min_funding_rate := min_funding_rate st;
     position_size_usd := position_size_usd st;
     max_slippage := max_slippage st;
     active_positions := active_positions st;
     markets := markets st;
     trace := trace st ++ [e] |}.

Definition log (level : Level) (msg : Message) : State → State := emit (Log level msg).

Definition set_markets (mk : gmap string Market.t) (st : State) : State :=
  {| min_funding_rate := min_funding_rate st;
     position_size_usd := position_size_usd st;
     max_slippage := max_slippage st;
     active_positions := active_positions st;
     markets := mk;
     trace := trace st |}.

Definition set_active_positions (ap : gmap string Position.t) (st : State) : State :=
  {| min_funding_rate := min_funding_rate st;
     position_size_usd := position_size_usd st;
     max_slippage := max_slippage st;
     active_positions := ap;
     markets := markets st;
     trace := trace st |}.

(** The orders submitted in a trace, oldest first. *)
Definition posts (t : list Event) : list Order.t :=
  omap (λ e, match e with Post o => Some o | _ => None end) t.

(** The symbols a hedge was opened for in a trace, oldest first. *)
Definition opened (t : list Event) : list string :=
  omap (λ e, match e with Log INFO (MsgOpened s) => Some s | _ => None end) t.

(** The symbols [execute_funding_arb] was called for in a trace: the loop
    logs [MsgFound] immediately before each call and nowhere else. *)
Definition found (t : list Event) : list string :=
  omap (λ e, match e with Log INFO (MsgFound s _) => Some s | _ => None end) t.

(** The sleeps of a trace, in seconds, oldest first. *)
Definition sleeps (t : list Event) : list Z :=
  omap (λ e, match e with Sleep seconds => Some seconds | _ => None end) t.

(** Two states of the market object of one instrument: they differ in the
    quotes at most. *)
Definition same_instrument (m m' : Market.t) : Prop :=
  Market.symbol m' = Market.symbol m ∧
  Market.perp_asset_id m' = Market.perp_asset_id m ∧
  Market.spot_asset_id m' = Market.spot_asset_id m ∧
  Market.size_decimals m' = Market.size_decimals m.

(** ** Builtins *)

(** [s.split('/')[0]]: the text before the first slash. *)
Fixpoint split_head (s : string) : string :=
  match s with
  | EmptyString => EmptyString
  | String c rest => if Ascii.eqb c "/"%char then EmptyString else String c (split_head rest)
  end.

(** [base] is the text of [name] before its first slash: it holds no slash,
    and [name] is [base], or [base], a slash and more text. *)
Definition base_of (name base : string) : Prop :=
  (∀ before after, base ≠ before +:+ "/" +:+ after) ∧
  (name = base ∨ ∃ quote, name = base +:+ "/" +:+ quote).

(** Rounding of the rational [num / den] ([0 < den]) to the nearest integer,
    ties to even. *)
Definition round_half_even (num den : Z) : Z :=
  let q := num / den in
  let r2 := 2 * (num mod den) in
  if r2 <? den then q
  else if den <? r2 then q + 1
  else if Z.even q then q else q + 1.

(** The [n] low decimal digits of [q], most significant first. *)
Fixpoint low_digits (n : nat) (q : Z) : string :=
  match n with
  | O => EmptyString
  | S k =>
      low_digits k (q / 10) +:+
      String (Ascii.ascii_of_nat (48 + Z.to_nat (q mod 10))) EmptyString
  end.

(** The decimal numeral of [q / 10^d] with [d] digits after the point. *)
Definition fixed_point (negative : bool) (q d : Z) : string :=
  (if negative then "-" else "") +:+ pretty (q / 10 ^ d) +:+
  (if d =? 0 then "" else "." +:+ low_digits (Z.to_nat d) (q mod 10 ^ d)).

(** The value of a decimal digit. *)
Definition digit_value (c : ascii) : option Z :=
  let n := Z.of_nat (nat_of_ascii c) in
  if (48 <=? n) && (n <=? 57) then Some (n - 48) else None.

(** A numeral of decimal digits with at most one point, read from the left:
    the integer that its digits spell, the point left out, and the number of
    digits after the point. [acc] is the integer read so far, [after] the
    number of digits read after the point, once the point was read. *)
Fixpoint read_digits (s : string) (acc : Z) (after : option nat) : option (Z * nat) :=
  match s with
  | EmptyString => Some (acc, default 0%nat after)
  | String c rest =>
      if Ascii.eqb c "."%char then
        match after with
        | None => read_digits rest acc (Some 0%nat)
        | Some _ => None
        end
      else
        match digit_value c with
        | Some v => read_digits rest (10 * acc + v) (S <$> after)
        | None => None
        end
  end.

(** [s] is a numeral of [q] units of [10^-d], written with [d] digits after
    the point and with a minus sign exactly when [negative]. *)
Definition numeral_of (negative : bool) (q : Z) (d : nat) (s : string) : Prop :=
  ∃ digits,
    s = ((if negative then "-" else "") +:+ digits)%string ∧
    read_digits digits 0 None = Some (q, d).

(** The exact value of a finite float with mantissa [m] and exponent [e] is
    [m * 2^e]; scaled by [10^d] it is the fraction [scaled_num / scaled_den]. *)
Definition scaled_num (m : positive) (e d : Z) : Z := Z.pos m * 10 ^ d * 2 ^ Z.max e 0.
Definition scaled_den (e : Z) : Z := 2 ^ Z.max (- e) 0.

Definition INT_MAX : Z := 2147483647.

(** [f"{x:.{d}f}"]: the correctly rounded decimal expansion with [d] digits
    after the point; [ValueError] when [d] is not a precision. *)
Definition format_fixed (x : float) (d : Z) : option string :=
  if (d <? 0) || (INT_MAX <? d) then None
  else Some
    match Prim2SF x with
    | S754_nan => "nan"%string
    | S754_infinity negative => ((if negative then "-" else "") +:+ "inf")%string
    | S754_zero negative => fixed_point negative 0 d
    | S754_finite negative m e =>
        fixed_point negative (round_half_even (scaled_num m e d) (scaled_den e)) d
    end.

(** A float is a number. *)
Definition is_number (x : float) : bool :=
  match Prim2SF x with S754_nan => false | _ => true end.

(** ** Market Catalog *)

(** The inner loop of [initialize_markets]: the first spot entry whose base
    asset is [symbol], if any. *)
Definition find_spot (symbol : string) (spots : list Spot.t) : option Spot.t :=
  find (λ spot, String.eqb (split_head (Spot.name spot)) symbol) spots.

(** The last perpetual named [symbol] with its index, if any. *)
Fixpoint last_named (symbol : string) (perps : list Perp.t) : option (nat * Perp.t) :=
  match perps with
  | [] => None
  | perp :: rest =>
      match last_named symbol rest with
      | Some (i, found) => Some (S i, found)
      | None => if String.eqb (Perp.name perp) symbol then Some (O, perp) else None
      end
  end.

(** The loop of [initialize_markets] over [enumerate(perp_meta['universe'])],
    from index [perp_idx] on. *)
Fixpoint map_markets (perp_idx : Z) (perps : list Perp.t) (spots : list Spot.t)
    (markets : gmap string Market.t) : gmap string Market.t :=
  match perps with
  | [] => markets
  | perp :: rest =>
      let symbol := Perp.name perp in
      let spot_info := find_spot symbol spots in
      let markets :=
        match spot_info with
        | Some spot_info =>
            <[symbol := Market.new symbol perp_idx (10000 + Spot.index spot_info)
                          (Perp.szDecimals perp)]> markets
        | None => markets
        end in
      map_markets (perp_idx + 1) rest spots markets
  end.

Definition initialize_markets (perps : list Perp.t) (spots : list Spot.t) : gmap string Market.t :=
  map_markets 0 perps spots ∅.

(** [HyperliquidFundingArb(min_funding_rate, position_size_usd, max_slippage)]
    once both catalogs were retrieved. *)
Definition new_bot (min_funding_rate position_size_usd max_slippage : float)
    (perps : list Perp.t) (spots : list Spot.t) : State :=
  let markets := initialize_markets perps spots in
  {| min_funding_rate := min_funding_rate;
     position_size_usd := position_size_usd;
     max_slippage := max_slippage;
     active_positions := ∅;
     markets := markets;
     trace := [Log INFO (MsgInitialized (size markets))] |}.

(** The bot of [main], and the defaults of the constructor (the same values). *)
Definition default_bot : list Perp.t → list Spot.t → State :=
  new_bot 0.05%float 1000%float 0.001%float.

(** ** Opportunity ranking *)

(** [l.sort(key=key, reverse=True)] on keys that are numbers. Python's sort
    is stable and compares keys with [<] only; with [reverse=True] it
    reverses the list, sorts it in ascending order and reverses it again, so
    that equal keys keep their order. On numbers that is insertion from the
    back: an element moves behind the elements of the sorted rest whose key
    is strictly greater. *)
Fixpoint insert_desc {A} (key : A → float) (x : A) (l : list A) : list A :=
  match l with
  | [] => [x]
  | y :: rest => if (key x <? key y)%float then y :: insert_desc key x rest else x :: l
  end.

Definition sort_reverse {A} (key : A → float) (l : list A) : list A :=
  foldr (insert_desc key) [] l.

(** [l] rearranged: from the last element back, each element is put among
    the elements behind it, after as many of them as [places] says for it
    (none when [places] says nothing). Every arrangement of [l] is obtained
    this way, and no places at all leave [l] as it is. *)
Fixpoint arrange {A} (places : list nat) (l : list A) : list A :=
  match l with
  | [] => []
  | x :: rest =>
      let behind := arrange (tail places) rest in
      let place := default 0%nat (head places) in
      take place behind ++ x :: drop place behind
  end.

(** [l.sort(key=key, reverse=True)]. With a NaN among the keys [<] is not an
    order, and where the elements end up depends on the comparisons the
    algorithm of the interpreter happens to make: the result is the
    arrangement of [l] that [sort_order] gives for the keys in list order. *)
Definition list_sort {A} (sort_order : list float → list nat) (key : A → float) (l : list A)
    : list A :=
  if forallb (λ x, is_number (key x)) l then sort_reverse key l
  else arrange (sort_order (key <$> l)) l.

(** [lambda x: abs(x['funding_rate'])]. *)
Definition abs_rate (opp : Opp.t) : float := abs (Opp.funding_rate opp).

(** [x] may stand before [y] in a list ranked by decreasing [key]. *)
Definition desc {A} (key : A → float) (x y : A) : Prop := (key y <=? key x)%float = true.

(** A list is in non-increasing order of [key]. *)
Definition non_increasing {A} (key : A → float) (l : list A) : Prop :=
  ∀ i j x y, (i < j)%nat → l !! i = Some x → l !! j = Some y → (key y <=? key x)%float = true.

(** Entries with equal keys are in the order they had in [l0]. *)
Definition ties_in_order {A} (key : A → float) (l0 l : list A) : Prop :=
  ∀ k, filter (λ x, (key x =? k)%float = true) l = filter (λ x, (key x =? k)%float = true) l0.

Section Bot.

(** The builtins [float] (on text; [None] when it raises [ValueError]) and
    [str] (on floats). *)
Variable py_float : string → option float.

(** The arrangement [list.sort(reverse=True)] leaves a list in whose keys
    hold a NaN (see [list_sort] and [arrange]). *)
Variable sort_order : list float → list nat.

Variable py_str : float → string.

(** The order endpoint: the answer to an order given the orders submitted
    before it; [None] when [requests.post] or [response.json()] raises. *)
Variable exchange : list Order.t → Order.t → option Json.

(** [datetime.now()] after the given history. *)
Variable now : list Event → Z.

(** *** Market Data Feed *)

(** The loop of [get_funding_opportunities] over [enumerate(contexts[1])],
    from index [idx] on. The result is [None] when the loop raises; the
    markets updated before that stay updated. *)
Fixpoint scan_contexts (idx : nat) (ctxs : list Ctx.t) (names : list string)
    (markets : gmap string Market.t) (opportunities : list Opp.t)
    : option (list Opp.t) * gmap string Market.t :=
  match ctxs with
  | [] => (Some opportunities, markets)
  | ctx :: rest =>
      match names !! idx with
      | None => (None, markets)
      | Some symbol =>
          match markets !! symbol with
          | None => scan_contexts (S idx) rest names markets opportunities
          | Some market =>
              match py_float (Ctx.funding ctx) with
              | None => (None, markets)
              | Some funding =>
                  let market := Market.set_funding_rate (funding * 365 * 100)%float market in
                  let markets := <[symbol := market]> markets in
                  match py_float (Ctx.markPx ctx) with
                  | None => (None, markets)
                  | Some mark_px =>
                      let market := Market.set_mark_price mark_px market in
                      let markets := <[symbol := market]> markets in
                      scan_contexts (S idx) rest names markets
                        (opportunities ++
                         [Opp.make symbol (Market.funding_rate market)
                                   (Market.mark_price market) symbol])
                  end
              end
          end
      end
  end.

(** [get_funding_opportunities], given what [_make_request] returns for
    [metaAndAssetCtxs] ([None] when it raises, after logging). *)
Definition get_funding_opportunities (response : option Contexts) (st : State)
    : list Opp.t * State :=
  match response with
  | None => ([], log ERROR MsgFetchFailed (log ERROR MsgRequestFailed st))
  | Some contexts =>
      match scan_contexts 0 (asset_ctxs contexts) (universe contexts) (markets st) [] with
      | (Some opportunities, mk) => (list_sort sort_order abs_rate opportunities, set_markets mk st)
      | (None, mk) => ([], log ERROR MsgFetchFailed (set_markets mk st))
      end
  end.

(** The quote fetch fails: [_make_request] raises, or the loop over the
    answer does. *)
Definition fetch_fails (response : option Contexts) (st : State) : Prop :=
  match response with
  | None => True
  | Some contexts =>
      (scan_contexts 0 (asset_ctxs contexts) (universe contexts) (markets st) []).1 = None
  end.

(** *** Hedge Execution Engine *)

(** [_place_order]: the value it returns ([None] is [JNull]). *)
Definition _place_order (asset_id : Z) (is_buy : bool) (price size : string) (st : State)
    : Json * State :=
  let order := Order.make asset_id is_buy price size false "Gtc" in
  let reply := exchange (posts (trace st)) order in
  let st := emit (Post order) st in
  match reply with
  | Some json => (json, st)
  | None => (JNull, log ERROR MsgOrderError st)
  end.

(** [_emergency_close]: the truth value of what it returns. *)
Definition _emergency_close (asset_id : Z) (size : string) (is_buy : bool) (st : State)
    : bool * State :=
  let '(close_order, st) := _place_order asset_id (negb is_buy) "0" size st in
  match close_order with
  | JNull | JOther false => (false, st)
  | JOther true => (false, log ERROR MsgCloseError st)
  | JObject status => (status_ok status, st)
  end.

(** The body of the [try] block of [execute_funding_arb]: [None] when it
    raises. [market] is a reference, read in [self.markets]; a reference
    never dangles, and the model counts a missing key as a raise. *)
Definition execute_funding_arb_body (market : string) (funding_rate : float) (st : State)
    : option bool * State :=
  match markets st !! market with
  | None => (None, st)
  | Some m =>
      if (Market.mark_price m =? 0)%float then (None, st)
      else
        let token_amount := (position_size_usd st / Market.mark_price m)%float in
        match format_fixed token_amount (Market.size_decimals m) with
        | None => (None, st)
        | Some formatted_amount =>
            let st := log INFO (MsgAttempting (Market.symbol m)) st in
            let st := log INFO (MsgFundingRate funding_rate) st in
            let st := log INFO (MsgTradeSize formatted_amount (Market.symbol m)
                                             (position_size_usd st)) st in
            let '(spot_order, st) :=
              _place_order (Market.spot_asset_id m) true
                (py_str (Market.mark_price m * (1 + max_slippage st))%float)
                formatted_amount st in
            match spot_order with
            | JNull | JOther _ => (None, st)
            | JObject status =>
                if negb (status_ok status) then (Some false, log ERROR MsgSpotFailed st)
                else
                  let '(perp_order, st) :=
                    _place_order (Market.perp_asset_id m) false
                      (py_str (Market.mark_price m * (1 - max_slippage st))%float)
                      formatted_amount st in
                  match perp_order with
                  | JNull | JOther _ => (None, st)
                  | JObject status =>
                      if negb (status_ok status) then
                        let st := log ERROR MsgPerpFailed st in
                        let '(_, st) :=
                          _emergency_close (Market.spot_asset_id m) formatted_amount true st in
                        (Some false, st)
                      else
                        let position :=
                          Position.make (now (trace st)) funding_rate (Market.mark_price m)
                                        token_amount market in
                        let st :=
                          set_active_positions
                            (<[Market.symbol m := position]> (active_positions st)) st in
                        (Some true, log INFO (MsgOpened (Market.symbol m)) st)
                  end
            end
        end
  end.

Definition execute_funding_arb (market : string) (funding_rate : float) (st : State)
    : bool * State :=
  match execute_funding_arb_body market funding_rate st with
  | (Some result, st) => (result, st)
  | (None, st) => (false, log ERROR MsgExecuteError st)
  end.

(** The orders [execute_funding_arb] builds for a market [m] and a
    formatted amount: the spot leg, the perpetual leg and the order of the
    emergency close of the spot leg. *)
Definition spot_leg (st : State) (m : Market.t) (formatted_amount : string) : Order.t :=
  Order.make (Market.spot_asset_id m) true
    (py_str (Market.mark_price m * (1 + max_slippage st))%float) formatted_amount false "Gtc".

Definition perp_leg (st : State) (m : Market.t) (formatted_amount : string) : Order.t :=
  Order.make (Market.perp_asset_id m) false
    (py_str (Market.mark_price m * (1 - max_slippage st))%float) formatted_amount false "Gtc".

Definition unwind_leg (m : Market.t) (formatted_amount : string) : Order.t :=
  Order.make (Market.spot_asset_id m) false "0" formatted_amount false "Gtc".

(** The amount of a hedge of market [m]: [None] when computing or
    formatting it raises. *)
Definition hedge_amount (st : State) (m : Market.t) : option (float * string) :=
  if (Market.mark_price m =? 0)%float then None
  else
    let token_amount := (position_size_usd st / Market.mark_price m)%float in
    match format_fixed token_amount (Market.size_decimals m) with
    | None => None
    | Some formatted_amount => Some (token_amount, formatted_amount)
    end.

(** The orders a call of [execute_funding_arb] submitted: those of the
    trace after it that were not in the trace before it. *)
Definition new_posts (st st' : State) : list Order.t :=
  drop (length (posts (trace st))) (posts (trace st')).

(** *** Control Loop *)

(** The body of the loop [for opp in opportunities] of [main]. *)
Definition consider (opp : Opp.t) (st : State) : State :=
  if (min_funding_rate st <=? abs (Opp.funding_rate opp))%float then
    match active_positions st !! Opp.symbol opp with
    | Some _ => st
    | None =>
        let st := log INFO (MsgFound (Opp.symbol opp) (Opp.funding_rate opp)) st in
        let '(success, st) :=
          execute_funding_arb (Opp.market opp) (Opp.funding_rate opp) st in
        if success then log INFO (MsgExecuted (Opp.symbol opp)) st
        else log ERROR (MsgNotExecuted (Opp.symbol opp)) st
    end
  else st.

Definition consider_all (opportunities : list Opp.t) (st : State) : State :=
  foldl (λ st opp, consider opp st) st opportunities.

(** One iteration of [while True], given the answer of the quote source.
    Nothing in it raises past the handlers of the functions it calls. *)
Definition cycle (response : option Contexts) (st : State) : State :=
  let '(opportunities, st) := get_funding_opportunities response st in
  match opportunities with
  | [] => emit (Sleep 60) (log INFO MsgNoOpportunities st)
  | _ =>
      let st := log INFO MsgTop st in
      let st :=
        foldl (λ st opp, log INFO (MsgTopEntry (Opp.symbol opp) (Opp.funding_rate opp)) st)
              st (take 5 opportunities) in
      let st := consider_all opportunities st in
      emit (Sleep 60) st
  end.

(** The loop of [main] for as many iterations as the quote source has
    answers: every state the bot reaches is [main_loop feed st] for some
    [feed]. *)
Definition main_loop (feed : list (option Contexts)) (st : State) : State :=
  foldl (λ st response, cycle response st) st feed.

End Bot.

(** ** Invariant of the control loop *)

(** Every call of [execute_funding_arb] in the trace is for a symbol no hedge
    was opened for before the call. *)
Definition calls_fresh (t : list Event) : Prop :=
  ∀ t1 symbol rate t2, t = t1 ++ Log INFO (MsgFound symbol rate) :: t2 → symbol ∉ opened t1.

(** Every market object is stored under its own symbol. *)
Definition catalog_wf (mk : gmap string Market.t) : Prop :=
  ∀ key m, mk !! key = Some m → Market.symbol m = key.

(** What holds of the bot whenever the loop is between two calls of
    [execute_funding_arb]: the ledger holds exactly the symbols a hedge was
    opened for, each opened once, and no call was for a held symbol. *)
Record loop_invariant (st : State) : Prop := {
  inv_catalog : catalog_wf (markets st);
  inv_ledger : dom (active_positions st) = list_to_set (opened (trace st));
  inv_once : NoDup (opened (trace st));
  inv_fresh : calls_fresh (trace st);
}.

(** The catalog [mk] holds the instruments of the catalog [mk0], under the
    same keys. *)
Definition same_catalog (mk0 mk : gmap string Market.t) : Prop :=
  dom mk = dom mk0 ∧
  ∀ symbol m, mk0 !! symbol = Some m → ∃ m', mk !! symbol = Some m' ∧ same_instrument m m'.

(** Every order of the trace is for the spot or the perpetual instrument of
    a market of the catalog. *)
Definition orders_within (mk : gmap string Market.t) (t : list Event) : Prop :=
  ∀ o, o ∈ posts t →
    ∃ symbol m, mk !! symbol = Some m ∧
      (Order.a o = Market.spot_asset_id m ∨ Order.a o = Market.perp_asset_id m).

(** ** Snapshots *)

(** The loop of [get_funding_opportunities] gets past entry [i] of a
    snapshot: the universe has a name for the entry and, when that name is a
    symbol of the catalog, [float] accepts the funding rate and the mark
    price of the entry. *)
Definition readable (py_float : string → option float) (mk : gmap string Market.t)
    (contexts : Contexts) (i : nat) : Prop :=
  ∀ ctx, asset_ctxs contexts !! i = Some ctx →
    ∃ symbol, universe contexts !! i = Some symbol ∧
      (is_Some (mk !! symbol) →
       is_Some (py_float (Ctx.funding ctx)) ∧ is_Some (py_float (Ctx.markPx ctx))).

(** The loop gets past each of the first [n] entries of the snapshot. *)
Definition readable_upto (py_float : string → option float) (mk : gmap string Market.t)
    (contexts : Contexts) (n : nat) : Prop :=
  ∀ i, (i < n)%nat → readable py_float mk contexts i.

(** No funding rate of the answer annualizes to a NaN. *)
Definition rates_are_numbers (py_float : string → option float) (response : option Contexts)
    : Prop :=
  ∀ contexts ctx raw,
    response = Some contexts → ctx ∈ asset_ctxs contexts →
    py_float (Ctx.funding ctx) = Some raw → is_number (raw * 365 * 100)%float = true.

(** The list [opportunities] of [get_funding_opportunities] when the loop
    has ended, before it is sorted: the opportunities in the order of the
    snapshot. There is none when the call fails. *)
Definition unsorted_opportunities (py_float : string → option float)
    (response : option Contexts) (st : State) : list Opp.t :=
  match response with
  | None => []
  | Some contexts =>
      default []
        (scan_contexts py_float 0 (asset_ctxs contexts) (universe contexts) (markets st) []).1
  end.

(** ** Scenarios *)

(** [float] on the quotes the scenarios use. *)
Definition scenario_float (s : string) : option float :=
  if String.eqb s "0.001" then Some 0.001%float
  else if String.eqb s "-0.001" then Some (-0.001)%float
  else if String.eqb s "0.002" then Some 0.002%float
  else if String.eqb s "0.000002" then Some 0.000002%float
  else if String.eqb s "50000" then Some 50000%float
  else if String.eqb s "nan" then Some nan
  else None.

(** [str] on the limit prices the scenarios use. *)
Definition scenario_str (x : float) : string :=
  if (x =? 50049.999999999993)%float then "50049.99999999999"
  else if (x =? 49950)%float then "49950.0"
  else "".

Definition scenario_now (_ : list Event) : Z := 0.

(** The one list with a NaN key that the scenarios sort has the keys 36.5,
    NaN, 73, and the sort leaves it as it is: reversed it is 73, NaN, 36.5,
    where neither [NaN < 73] nor [36.5 < NaN] holds, so the whole list counts
    as one ascending run, is kept, and is reversed back. *)
Definition scenario_order (keys : list float) : list nat := [].

(** Exchanges: one that accepts every order, one that rejects every order,
    one that accepts the first order of a session only, rejecting or failing
    to answer the others. *)
Definition exchange_ok (_ : list Order.t) (_ : Order.t) : option Json :=
  Some (JObject (Some "ok"%string)).
Definition exchange_error (_ : list Order.t) (_ : Order.t) : option Json :=
  Some (JObject (Some "error"%string)).
Definition exchange_first_then_error (before : list Order.t) (_ : Order.t) : option Json :=
  match before with
  | [] => Some (JObject (Some "ok"%string))
  | _ => Some (JObject (Some "error"%string))
  end.
Definition exchange_first_then_down (before : list Order.t) (_ : Order.t) : option Json :=
  match before with
  | [] => Some (JObject (Some "ok"%string))
  | _ => None
  end.

(** The catalog and the snapshots of the scenarios. *)
Definition btc_perps : list Perp.t := [Perp.make "BTC" 3].
Definition btc_spots : list Spot.t := [Spot.make "BTC/USDC" 5].
Definition btc_bot : State := default_bot btc_perps btc_spots.

Definition contexts_of (quotes : list (string * string * string)) : Contexts :=
  {| universe := (λ q, q.1.1) <$> quotes;
     asset_ctxs := (λ q, Ctx.make q.1.2 q.2) <$> quotes |}.

Definition snapshot (quotes : list (string * string * string)) : option Contexts :=
  Some (contexts_of quotes).

Definition btc_snapshot (funding : string) : option Contexts :=
  snapshot [("BTC", funding, "50000")]%string.

(** Three markets, the second of which is quoted a funding rate that is not
    a number. *)
Definition abn_perps : list Perp.t := [Perp.make "A" 1; Perp.make "N" 1; Perp.make "B" 1].
Definition abn_spots : list Spot.t :=
  [Spot.make "A/USDC" 1; Spot.make "N/USDC" 2; Spot.make "B/USDC" 3].
Definition abn_bot : State := default_bot abn_perps abn_spots.
Definition abn_snapshot : option Contexts :=
  snapshot [("A", "0.001", "50000"); ("N", "nan", "50000"); ("B", "0.002", "50000")]%string.

(** A bot that has refreshed its one market from a snapshot. *)
Definition btc_refreshed (funding : string) : State :=
  (get_funding_opportunities scenario_float scenario_order (btc_snapshot funding) btc_bot).2.

(** * Properties *)

(** ** Floats: the order of the numbers *)

(** The comparisons of [float] are those of [spec_float], which order the
    numbers by sign, then exponent, then mantissa. *)
Ltac sf_compare :=
  unfold SFleb, SFltb, SFeqb, SFcompare;
  repeat match goal with x : spec_float |- _ => destruct x as [[]|[]| |[] ? ?] end;
  simpl; try done;
  change (Pos.compare_cont Eq) with Pos.compare;
  repeat match goal with
         | |- context [(?a ?= ?b)%Z] => destruct (Z.compare_spec a b); simpl; try done
         | |- context [(?a ?= ?b)%positive] => destruct (Pos.compare_spec a b); simpl; try done
         end;
  try lia.

Lemma SFleb_trans x y z : SFleb x y = true → SFleb y z = true → SFleb x z = true.
Proof. sf_compare. Qed.

Lemma SFltb_false_leb x y :
  x ≠ S754_nan → y ≠ S754_nan → SFltb x y = false → SFleb y x = true.
Proof. sf_compare. Qed.

Lemma SFltb_leb x y : SFltb x y = true → SFleb x y = true.
Proof. sf_compare. Qed.

Lemma SFeqb_not_ltb x y k : SFeqb x k = true → SFeqb y k = true → SFltb x y = false.
Proof. sf_compare. Qed.

Lemma float_leb_trans (x y z : float) :
  (x <=? y)%float = true → (y <=? z)%float = true → (x <=? z)%float = true.
Proof. rewrite !leb_spec. apply SFleb_trans. Qed.

Lemma float_ltb_false_leb (x y : float) :
  is_number x = true → is_number y = true → (x <? y)%float = false → (y <=? x)%float = true.
Proof.
  unfold is_number. rewrite ltb_spec, leb_spec. intros Hx Hy.
  apply SFltb_false_leb; intros E; by rewrite E in *.
Qed.

Lemma float_ltb_leb (x y : float) : (x <? y)%float = true → (x <=? y)%float = true.
Proof. rewrite ltb_spec, leb_spec. apply SFltb_leb. Qed.

Lemma float_eqb_not_ltb (x y k : float) :
  (x =? k)%float = true → (y =? k)%float = true → (x <? y)%float = false.
Proof. rewrite !FloatAxioms.eqb_spec, FloatAxioms.ltb_spec. apply SFeqb_not_ltb. Qed.

Lemma float_pos_nonzero (x : float) : (0 <? x)%float = true → (x =? 0)%float = false.
Proof.
  rewrite FloatAxioms.ltb_spec, FloatAxioms.eqb_spec. change (Prim2SF 0) with (S754_zero false).
  generalize (Prim2SF x). intros s. sf_compare.
Qed.

Lemma is_number_abs (x : float) : is_number (abs x) = is_number x.
Proof. unfold is_number. rewrite abs_spec. by destruct (Prim2SF x). Qed.

(** ** Ranking: insertion sort by decreasing key *)

Section Ranking.
Context {A : Type} (key : A → float).

Lemma insert_desc_perm x l : insert_desc key x l ≡ₚ x :: l.
Proof.
  induction l as [|y l IH]; simpl; [done|].
  destruct (key x <? key y)%float; [|done].
  rewrite IH. apply Permutation_swap.
Qed.

Lemma sort_reverse_perm l : sort_reverse key l ≡ₚ l.
Proof.
  induction l as [|x l IH]; simpl; [done|].
  by rewrite insert_desc_perm, IH.
Qed.

Lemma insert_desc_sorted x l :
  is_number (key x) = true →
  Forall (λ y, is_number (key y) = true) l →
  StronglySorted (desc key) l → StronglySorted (desc key) (insert_desc key x l).
Proof.
  intros Hx Hl Hs. induction Hs as [|y l Hs IH Hy]; simpl.
  - repeat constructor.
  - apply Forall_cons in Hl as [Hny Hl].
    destruct (key x <? key y)%float eqn:Hlt.
    + constructor; [by apply IH|].
      rewrite insert_desc_perm. constructor; [|done].
      by apply float_ltb_leb.
    + assert (desc key x y) as Hxy by by apply float_ltb_false_leb.
      constructor; [by constructor|]. constructor; [done|].
      eapply Forall_impl; [exact Hy|]. intros z Hz. unfold desc in *.
      by eapply float_leb_trans.
Qed.

Lemma sort_reverse_sorted l :
  Forall (λ y, is_number (key y) = true) l → StronglySorted (desc key) (sort_reverse key l).
Proof.
  induction 1 as [|x l Hx Hl IH]; simpl; [constructor|].
  apply insert_desc_sorted; [done| |done].
  by rewrite sort_reverse_perm.
Qed.

Lemma StronglySorted_non_increasing l : StronglySorted (desc key) l → non_increasing key l.
Proof.
  induction 1 as [|x l Hs IH Hx]; intros i j a b Hij Hi Hj.
  - by rewrite lookup_nil in Hi.
  - destruct j as [|j]; [lia|]. simpl in Hj. destruct i as [|i]; simpl in Hi.
    + injection Hi as <-. rewrite Forall_forall in Hx. apply Hx.
      by eapply list_elem_of_lookup_2.
    + eapply (IH i j); [lia|done..].
Qed.

Lemma insert_desc_filter k x l :
  filter (λ y, (key y =? k)%float = true) (insert_desc key x l) =
  filter (λ y, (key y =? k)%float = true) (x :: l).
Proof.
  induction l as [|y l IH]; simpl; [done|].
  destruct (key x <? key y)%float eqn:Hlt; [|done].
  rewrite filter_cons, IH, !filter_cons.
  destruct (decide ((key y =? k)%float = true)) as [Hy|Hy];
    destruct (decide ((key x =? k)%float = true)) as [Hx|Hx]; try done.
  by rewrite (float_eqb_not_ltb _ _ _ Hx Hy) in Hlt.
Qed.

Lemma sort_reverse_ties l : ties_in_order key l (sort_reverse key l).
Proof.
  intros k. induction l as [|x l IH]; simpl; [done|].
  by rewrite insert_desc_filter, !filter_cons, IH.
Qed.

Lemma arrange_perm (l : list A) : ∀ places, arrange places l ≡ₚ l.
Proof.
  induction l as [|x l IH]; intros places; simpl; [done|].
  by rewrite <- Permutation_middle, take_drop, IH.
Qed.

Lemma arrange_complete (l : list A) : ∀ l', l' ≡ₚ l → ∃ places, arrange places l = l'.
Proof.
  induction l as [|x l IH]; intros l' Hperm.
  - exists []. by apply Permutation_nil_r in Hperm as ->.
  - assert (x ∈ l') as (l1 & l2 & ->)%list_elem_of_split by (rewrite Hperm; by left).
    rewrite <- Permutation_middle in Hperm. apply (inj (cons x)) in Hperm.
    destruct (IH _ Hperm) as [places Hplaces].
    exists (length l1 :: places). simpl. rewrite Hplaces.
    by rewrite take_app_length, drop_app_length.
Qed.

(** Whatever the keys, the sort rearranges the list; on keys that are
    numbers it is [sort_reverse]. *)
Lemma list_sort_perm sort_order (l : list A) : list_sort sort_order key l ≡ₚ l.
Proof.
  unfold list_sort. destruct (forallb _ l); [apply sort_reverse_perm|apply arrange_perm].
Qed.

Lemma list_sort_numbers sort_order l :
  Forall (λ y, is_number (key y) = true) l → list_sort sort_order key l = sort_reverse key l.
Proof.
  intros Hl. unfold list_sort.
  assert (forallb (λ x, is_number (key x)) l = true) as ->; [|done].
  apply forallb_forall. intros x Hx. rewrite Forall_forall in Hl. apply Hl.
  by apply list_elem_of_In.
Qed.
End Ranking.

(** ** Market Catalog *)

Lemma find_spot_Some symbol spots spot :
  find_spot symbol spots = Some spot → spot ∈ spots ∧ split_head (Spot.name spot) = symbol.
Proof.
  intros H. apply find_some in H as [Hin Heq].
  split; [by apply list_elem_of_In|]. by apply String.eqb_eq.
Qed.

Lemma find_spot_None symbol spots :
  find_spot symbol spots = None ↔ symbol ∉ (split_head ∘ Spot.name <$> spots).
Proof.
  unfold find_spot. induction spots as [|spot spots IH]; simpl.
  - split; [|done]. intros _. apply not_elem_of_nil.
  - rewrite not_elem_of_cons. destruct (String.eqb_spec (split_head (Spot.name spot)) symbol).
    + split; [done|]. intros [? _]. congruence.
    + rewrite IH. naive_solver.
Qed.

Lemma last_named_Some symbol perps i perp :
  last_named symbol perps = Some (i, perp) →
  perps !! i = Some perp ∧ Perp.name perp = symbol ∧
  ∀ j other, perps !! j = Some other → Perp.name other = symbol → (j ≤ i)%nat.
Proof.
  revert i. induction perps as [|p perps IH]; intros i; simpl; [done|].
  destruct (last_named symbol perps) as [[k q]|] eqn:Hlast.
  - intros [= <- <-]. destruct (IH k eq_refl) as (Hk & Hname & Hmax).
    repeat split; [done..|]. intros [|j] other Hj Ho; [lia|].
    apply le_n_S. by eapply Hmax.
  - destruct (String.eqb_spec (Perp.name p) symbol) as [Heq|Hne]; [|done].
    intros [= <- <-]. repeat split; [done..|].
    intros [|j] other Hj Ho; [lia|]. simpl in Hj.
    exfalso. clear IH. revert j Hj. induction perps as [|q perps IH']; intros j Hj.
    + by rewrite lookup_nil in Hj.
    + simpl in Hlast. destruct (last_named symbol perps) as [[]|]; [done|].
      destruct (String.eqb_spec (Perp.name q) symbol); [done|].
      destruct j as [|j]; simpl in Hj; [congruence|]. by eapply IH'.
Qed.

Lemma last_named_None symbol perps :
  last_named symbol perps = None ↔ symbol ∉ (Perp.name <$> perps).
Proof.
  induction perps as [|p perps IH]; simpl.
  - split; [|done]. intros _. apply not_elem_of_nil.
  - rewrite not_elem_of_cons, <- IH. destruct (last_named symbol perps) as [[]|].
    + naive_solver.
    + destruct (String.eqb_spec (Perp.name p) symbol); naive_solver.
Qed.

Lemma map_markets_lookup spots symbol perps : ∀ idx acc,
  map_markets idx perps spots acc !! symbol =
  match find_spot symbol spots, last_named symbol perps with
  | Some spot, Some (i, perp) =>
      Some (Market.new symbol (idx + Z.of_nat i) (10000 + Spot.index spot) (Perp.szDecimals perp))
  | _, _ => acc !! symbol
  end.
Proof.
  induction perps as [|p perps IH]; intros idx acc; simpl.
  - by destruct (find_spot symbol spots).
  - rewrite IH. destruct (find_spot symbol spots) as [spot|] eqn:Hspot.
    + destruct (last_named symbol perps) as [[i q]|].
      * by replace (idx + 1 + Z.of_nat i) with (idx + Z.of_nat (S i)) by lia.
      * destruct (String.eqb_spec (Perp.name p) symbol) as [->|Hne].
        -- rewrite Hspot, lookup_insert_eq. by rewrite Z.add_0_r.
        -- destruct (find_spot (Perp.name p) spots); [|done]. by rewrite lookup_insert_ne.
    + destruct (find_spot (Perp.name p) spots) eqn:Hp; [|done].
      rewrite lookup_insert_ne; [done|]. intros Heq. rewrite Heq in Hp. congruence.
Qed.

(** [split_head] gives the text before the first slash, and nothing else
    is that text. *)
Lemma split_head_no_slash name before after :
  split_head name ≠ (before +:+ "/" +:+ after)%string.
Proof.
  revert before. induction name as [|c name IH]; intros before; simpl.
  - by destruct before.
  - destruct (Ascii.eqb_spec c "/"%char) as [->|Hc]; [by destruct before|].
    destruct before as [|c' before]; [intros [= ]; congruence|].
    intros [= <- Heq]. by eapply IH.
Qed.

Lemma split_head_prefix name :
  name = split_head name ∨ ∃ quote, name = (split_head name +:+ "/" +:+ quote)%string.
Proof.
  induction name as [|c name IH]; simpl; [by left|].
  destruct (Ascii.eqb_spec c "/"%char) as [->|Hc]; [right; by exists name|].
  destruct IH as [IH|[quote IH]]; [left|right; exists quote];
    change (String c ?x +:+ ?y)%string with (String c (x +:+ y)%string); congruence.
Qed.

Lemma split_head_unique name base : base_of name base → split_head name = base.
Proof.
  revert base. induction name as [|c name IH]; intros base [Hno Hname].
  - destruct Hname as [<-|[quote Hq]]; [done|]. by destruct base.
  - simpl. destruct Hname as [<-|[quote Hq]].
    + destruct (Ascii.eqb_spec c "/"%char) as [->|Hc]; [by destruct (Hno ""%string name)|].
      f_equal. apply IH. split; [|by left].
      intros before after ->. by apply (Hno (String c before) after).
    + destruct base as [|c' base]; injection Hq as -> ->.
      * by rewrite Ascii.eqb_refl.
      * destruct (Ascii.eqb_spec c' "/"%char) as [->|Hc]; [by destruct (Hno ""%string base)|].
        f_equal. apply IH. split; [|right; by exists quote].
        intros before after ->. by apply (Hno (String c' before) after).
Qed.

Lemma split_head_base name base : split_head name = base ↔ base_of name base.
Proof.
  split; [|apply split_head_unique].
  intros <-. split; [intros before after; apply split_head_no_slash|apply split_head_prefix].
Qed.

Lemma find_spot_first symbol spots spot :
  find_spot symbol spots = Some spot →
  ∃ k, spots !! k = Some spot ∧
    ∀ j other, (j < k)%nat → spots !! j = Some other → split_head (Spot.name other) ≠ symbol.
Proof.
  unfold find_spot. induction spots as [|first spots IH]; simpl; [done|].
  destruct (String.eqb_spec (split_head (Spot.name first)) symbol) as [Heq|Hne].
  - intros [= ->]. exists 0%nat. split; [done|]. intros j other Hj. lia.
  - intros (k & Hk & Hfirst)%IH. exists (S k). split; [done|].
    intros [|j] other Hj Ho; simpl in Ho; [congruence|]. apply (Hfirst j); [lia|done].
Qed.

(** C6. For every pair of catalogs, [initialize_markets] holds a market for
    exactly the symbols that name a perpetual and are the base asset (the
    text before the first slash of the name) of some spot entry. The market
    of such a symbol has this symbol, as perpetual identifier the index of
    the (last) perpetual of that name, as spot identifier 10000 plus the
    index field of the first spot entry with that base asset, the size
    precision of the perpetual and no quotes yet. A symbol that is the base
    asset of no spot entry has no market. Of the perpetuals ETH and BTC and
    the spot pairs PURR/USDC, with index 0, and BTC/USDC, with index 5, the
    catalog holds BTC alone, under the identifiers 1 and 10005. *)
Theorem market_catalog_build perps spots symbol :
  let markets := initialize_markets perps spots in
  (symbol ∈ dom markets ↔
     (∃ perp, perp ∈ perps ∧ Perp.name perp = symbol) ∧
     (∃ spot, spot ∈ spots ∧ base_of (Spot.name spot) symbol)) ∧
  (∀ m, markets !! symbol = Some m →
     ∃ i perp k spot,
       perps !! i = Some perp ∧ Perp.name perp = symbol ∧
       (∀ j other, perps !! j = Some other → Perp.name other = symbol → (j ≤ i)%nat) ∧
       spots !! k = Some spot ∧ base_of (Spot.name spot) symbol ∧
       (∀ j other, (j < k)%nat → spots !! j = Some other →
                   ¬ base_of (Spot.name other) symbol) ∧
       Market.symbol m = symbol ∧
       Market.perp_asset_id m = Z.of_nat i ∧
       Market.spot_asset_id m = 10000 + Spot.index spot ∧
       Market.size_decimals m = Perp.szDecimals perp ∧
       Market.funding_rate m = 0%float ∧ Market.mark_price m = 0%float) ∧
  ((∀ spot, spot ∈ spots → ¬ base_of (Spot.name spot) symbol) → markets !! symbol = None) ∧
  (let catalog :=
     initialize_markets [Perp.make "ETH" 4; Perp.make "BTC" 3]
                        [Spot.make "PURR/USDC" 0; Spot.make "BTC/USDC" 5] in
   catalog !! "BTC"%string = Some (Market.make "BTC" 1 10005 0 0 3) ∧
   catalog !! "ETH"%string = None ∧ catalog !! "PURR"%string = None ∧
   catalog !! "BTC/USDC"%string = None).
Proof.
  simpl. unfold initialize_markets.
  pose proof (map_markets_lookup spots symbol perps 0 ∅) as Hlook. rewrite lookup_empty in Hlook.
  pose proof (find_spot_None symbol spots) as Hnone.
  pose proof (last_named_None symbol perps) as Hlast.
  assert (symbol ∈ (Perp.name <$> perps) ↔ ∃ perp, perp ∈ perps ∧ Perp.name perp = symbol)
    as Hperps by (rewrite list_elem_of_fmap; naive_solver).
  assert (symbol ∈ (split_head ∘ Spot.name <$> spots) ↔
          ∃ spot, spot ∈ spots ∧ base_of (Spot.name spot) symbol) as Hspots.
  { rewrite list_elem_of_fmap. split.
    - intros (spot & -> & Hin). exists spot. split; [done|]. by apply split_head_base.
    - intros (spot & Hin & Hbase%split_head_base). by exists spot. }
  split; [|split; [|split]].
  - rewrite <- Hperps, <- Hspots, elem_of_dom, Hlook.
    destruct (find_spot symbol spots) as [spot|]; [destruct (last_named symbol perps) as [[i p]|]|].
    + split; [|by eauto]. intros _. split.
      * destruct (decide (symbol ∈ Perp.name <$> perps)); [done|]. naive_solver.
      * destruct (decide (symbol ∈ split_head ∘ Spot.name <$> spots)); [done|]. naive_solver.
    + split; [by intros []|]. intros [Hin _]. naive_solver.
    + split; [by intros []|]. intros [_ Hin]. naive_solver.
  - intros m. rewrite Hlook.
    destruct (find_spot symbol spots) as [spot|] eqn:Hspot; [|done].
    destruct (last_named symbol perps) as [[i p]|] eqn:Hperp; [|done].
    intros [= <-]. destruct (find_spot_first _ _ _ Hspot) as (k & Hk & Hfirst).
    apply find_spot_Some in Hspot as [Hin Hbase].
    apply last_named_Some in Hperp as (Hi & Hname & Hmax).
    exists i, p, k, spot. do 4 (split; [done|]). split; [by apply split_head_base|].
    split; [|done]. intros j other Hj Ho Hb%split_head_base. by eapply Hfirst.
  - intros Hno. rewrite Hlook.
    assert (find_spot symbol spots = None) as ->; [|done].
    apply Hnone. rewrite Hspots. intros (spot & Hin & Hbase). by eapply Hno.
  - by vm_compute.
Qed.

(** ** Traces *)

Lemma posts_app (t1 t2 : list Event) : posts (t1 ++ t2) = posts t1 ++ posts t2.
Proof. apply omap_app. Qed.

Lemma opened_app (t1 t2 : list Event) : opened (t1 ++ t2) = opened t1 ++ opened t2.
Proof. apply omap_app. Qed.

Lemma found_app (t1 t2 : list Event) : found (t1 ++ t2) = found t1 ++ found t2.
Proof. apply omap_app. Qed.

(** ** Rounding *)

Lemma round_half_even_nearest (num den : Z) :
  0 < den → Z.abs (2 * (round_half_even num den * den - num)) ≤ den.
Proof.
  intros Hden. unfold round_half_even.
  pose proof (Z.div_mod num den ltac:(lia)) as Hdiv.
  pose proof (Z.mod_pos_bound num den Hden) as Hmod.
  set (q := num / den) in *. set (r := num mod den) in *.
  assert (q * den = num - r) as Hq by lia.
  assert ((q + 1) * den = num - r + den) as Hq1 by lia.
  destruct (Z.ltb_spec (2 * r) den); [rewrite Hq; lia|].
  destruct (Z.ltb_spec den (2 * r)); [rewrite Hq1; lia|].
  destruct (Z.even q); [rewrite Hq|rewrite Hq1]; lia.
Qed.

Lemma scaled_den_pos (e : Z) : 0 < scaled_den e.
Proof. unfold scaled_den. apply Z.pow_pos_nonneg; lia. Qed.

Lemma round_half_even_nonneg (num den : Z) : 0 ≤ num → 0 < den → 0 ≤ round_half_even num den.
Proof.
  intros Hnum Hden. unfold round_half_even.
  pose proof (Z.div_pos num den Hnum Hden).
  repeat case_match; lia.
Qed.

Lemma round_half_even_tie (num den : Z) :
  0 < den → Z.abs (2 * (round_half_even num den * den - num)) = den →
  Z.even (round_half_even num den) = true.
Proof.
  intros Hden. unfold round_half_even.
  pose proof (Z.div_mod num den ltac:(lia)) as Hdiv.
  pose proof (Z.mod_pos_bound num den Hden) as Hmod.
  set (q := num / den) in *. set (r := num mod den) in *.
  assert (q * den = num - r) as Hq by lia.
  assert ((q + 1) * den = num - r + den) as Hq1 by lia.
  destruct (Z.ltb_spec (2 * r) den); [rewrite Hq; lia|].
  destruct (Z.ltb_spec den (2 * r)); [rewrite Hq1; lia|].
  destruct (Z.even q) eqn:Heven; [done|]. intros _.
  by rewrite Z.even_add, Heven.
Qed.

Lemma scaled_num_nonneg (m : positive) (e d : Z) : 0 ≤ d → 0 ≤ scaled_num m e d.
Proof.
  intros Hd. unfold scaled_num.
  assert (0 < 10 ^ d) by (apply Z.pow_pos_nonneg; lia).
  assert (0 < 2 ^ Z.max e 0) by (apply Z.pow_pos_nonneg; lia).
  nia.
Qed.

(** ** Numerals *)

Lemma string_app_assoc (s1 s2 s3 : string) : ((s1 +:+ s2) +:+ s3 = s1 +:+ (s2 +:+ s3))%string.
Proof. induction s1 as [|c s1 IH]; [done|]. cbv [String.append]. fold String.append. by f_equal. Qed.

Lemma string_app_nil_r (s : string) : (s +:+ "" = s)%string.
Proof. induction s as [|c s IH]; [done|]. cbv [String.append]. fold String.append. by f_equal. Qed.

Lemma read_digits_digit c v rest acc after :
  Ascii.eqb c "."%char = false → digit_value c = Some v →
  read_digits (String c rest) acc after = read_digits rest (10 * acc + v) (S <$> after).
Proof. intros Hpoint Hv. simpl. by rewrite Hpoint, Hv. Qed.

Lemma pretty_N_char_digit (x : N) :
  (x < 10)%N →
  Ascii.eqb (pretty_N_char x) "."%char = false ∧ digit_value (pretty_N_char x) = Some (Z.of_N x).
Proof.
  intros Hx.
  assert (x = 0 ∨ x = 1 ∨ x = 2 ∨ x = 3 ∨ x = 4 ∨ x = 5 ∨ x = 6 ∨ x = 7 ∨ x = 8 ∨ x = 9)%N
    as Hcases by lia.
  repeat destruct Hcases as [->|Hcases]; try subst x; by vm_compute.
Qed.

Lemma low_digit (r : Z) :
  0 ≤ r < 10 →
  Ascii.eqb (Ascii.ascii_of_nat (48 + Z.to_nat r)) "."%char = false ∧
  digit_value (Ascii.ascii_of_nat (48 + Z.to_nat r)) = Some r.
Proof.
  intros Hr.
  assert (r = 0 ∨ r = 1 ∨ r = 2 ∨ r = 3 ∨ r = 4 ∨ r = 5 ∨ r = 6 ∨ r = 7 ∨ r = 8 ∨ r = 9)
    as Hcases by lia.
  repeat destruct Hcases as [->|Hcases]; try subst r; by vm_compute.
Qed.

Lemma pretty_N_go_app (x : N) : ∀ s t, (pretty_N_go x s +:+ t = pretty_N_go x (s +:+ t))%string.
Proof.
  induction (N.lt_wf_0 x) as [x _ IH]; intros s t.
  destruct (decide (x = 0)%N) as [->|Hx]. { by rewrite !pretty_N_go_0. }
  rewrite (pretty_N_go_step x s), (pretty_N_go_step x (s +:+ t)) by lia.
  rewrite IH; [reflexivity|]. apply N.div_lt; lia.
Qed.

Lemma read_pretty_N_go (x : N) : ∀ s,
  read_digits (pretty_N_go x s) 0 None = read_digits s (Z.of_N x) None.
Proof.
  induction (N.lt_wf_0 x) as [x _ IH]; intros s.
  destruct (decide (x = 0)%N) as [->|Hx]; [by rewrite pretty_N_go_0|].
  rewrite pretty_N_go_step by lia. rewrite IH by (apply N.div_lt; lia).
  destruct (pretty_N_char_digit (x `mod` 10)%N) as [Hpoint Hv]; [by apply N.mod_lt|].
  rewrite (read_digits_digit _ _ _ _ _ Hpoint Hv). simpl. f_equal.
  rewrite N2Z.inj_div, N2Z.inj_mod. pose proof (Z.div_mod (Z.of_N x) 10). lia.
Qed.

Lemma read_pretty (n : Z) (rest : string) :
  0 ≤ n → read_digits (pretty n +:+ rest) 0 None = read_digits rest n None.
Proof.
  intros Hn. destruct n as [|p|p]; [done| |lia].
  unfold pretty, pretty_Z, pretty, pretty_positive, pretty, pretty_N.
  destruct (decide (N.pos p = 0)%N); [done|].
  by rewrite pretty_N_go_app, read_pretty_N_go.
Qed.

Lemma read_low_digits (n : nat) : ∀ r rest acc a,
  0 ≤ r →
  read_digits (low_digits n r +:+ rest) acc (Some a) =
  read_digits rest (acc * 10 ^ Z.of_nat n + r mod 10 ^ Z.of_nat n) (Some (a + n)%nat).
Proof.
  induction n as [|n IH]; intros r rest acc a Hr.
  - simpl. rewrite Z.mod_1_r, Nat.add_0_r. f_equal. lia.
  - cbn [low_digits]. rewrite string_app_assoc.
    rewrite IH by (apply Z.div_pos; lia).
    destruct (low_digit (r mod 10)) as [Hpoint Hv]; [apply Z.mod_pos_bound; lia|].
    change (String ?c "" +:+ rest)%string with (String c rest).
    rewrite (read_digits_digit _ _ _ _ _ Hpoint Hv). simpl fmap.
    replace (a + S n)%nat with (S (a + n)) by lia. f_equal.
    rewrite Nat2Z.inj_succ, Z.pow_succ_r by lia.
    rewrite (Z.rem_mul_r r 10 (10 ^ Z.of_nat n)) by lia. lia.
Qed.

(** [fixed_point] writes a numeral of [q] units of [10^-d]. *)
Lemma fixed_point_numeral (negative : bool) (q d : Z) :
  0 ≤ q → 0 ≤ d → numeral_of negative q (Z.to_nat d) (fixed_point negative q d).
Proof.
  intros Hq Hd. unfold numeral_of, fixed_point. eexists. split; [reflexivity|].
  assert (0 < 10 ^ d) as Hpow by (apply Z.pow_pos_nonneg; lia).
  rewrite read_pretty by (apply Z.div_pos; lia).
  destruct (Z.eqb_spec d 0) as [->|Hne].
  - simpl. rewrite Z.div_1_r. done.
  - change ("." +:+ ?s)%string with (String "."%char s). simpl.
    rewrite <- (string_app_nil_r (low_digits _ _)).
    rewrite read_low_digits by (apply Z.mod_pos_bound; lia). simpl.
    rewrite Z2Nat.id by lia. rewrite Z.mod_mod by lia.
    f_equal. f_equal. pose proof (Z.div_mod q (10 ^ d)). lia.
Qed.

(** ** Hedge Execution Engine *)

Section Hedge.
Context (py_str : float → string)
        (exchange : list Order.t → Order.t → option Json) (now : list Event → Z).

Ltac run_hedge :=
  unfold execute_funding_arb, execute_funding_arb_body, _emergency_close, _place_order,
    hedge_amount, new_posts, spot_leg, perp_leg, unwind_leg, log.

Ltac trace_norm :=
  simpl; rewrite ?posts_app; simpl; rewrite ?app_nil_r, <- ?app_assoc; simpl.

Ltac hedge_cases :=
  repeat first
    [ progress trace_norm
    | match goal with
      | |- context [status_ok ?s] => destruct (status_ok s) eqn:?
      | |- context [markets ?st !! ?k] => destruct (markets st !! k) eqn:?
      | |- context [(?x =? ?y)%float] => destruct (x =? y)%float eqn:?
      | |- context [format_fixed ?x ?d] => destruct (format_fixed x d) eqn:?
      | |- context [exchange ?h ?o] => destruct (exchange h o) as [[| [] |?]|] eqn:?
      end ].

Ltac new_posts_simpl := rewrite ?drop_app_length, ?drop_all.

Lemma hedge_amount_inv st m token_amount formatted_amount :
  hedge_amount st m = Some (token_amount, formatted_amount) →
  (Market.mark_price m =? 0)%float = false ∧
  token_amount = (position_size_usd st / Market.mark_price m)%float ∧
  format_fixed (position_size_usd st / Market.mark_price m) (Market.size_decimals m)
    = Some formatted_amount.
Proof.
  unfold hedge_amount. destruct (_ =? _)%float; [done|].
  destruct (format_fixed _ _); [|done]. by intros [= <- <-].
Qed.

Ltac use_eqs :=
  repeat match goal with H : ?x = _ |- context [?x] => rewrite H end; simpl.

(** C1. [execute_funding_arb] succeeds, or changes the ledger, only when
    it submitted exactly the spot order and the perpetual order and the
    exchange answered both with status "ok"; the ledger then gains one
    entry under the symbol of the market. When the answer to the spot
    order is anything else, the spot order is the only order submitted, the
    ledger is unchanged and the call returns [False]; so it is when the
    call raises before it orders anything. *)
Theorem position_recorded_only_when_both_legs_accepted market funding_rate st :
  let r := execute_funding_arb py_str exchange now market funding_rate st in
  let before := posts (trace st) in
  ((r.1 = true ∨ active_positions r.2 ≠ active_positions st) →
     ∃ m token_amount formatted_amount,
       markets st !! market = Some m ∧
       hedge_amount st m = Some (token_amount, formatted_amount) ∧
       let spot := spot_leg py_str st m formatted_amount in
       let perp := perp_leg py_str st m formatted_amount in
       new_posts st r.2 = [spot; perp] ∧
       accepted (exchange before spot) = true ∧
       accepted (exchange (before ++ [spot]) perp) = true ∧
       r.1 = true ∧
       ∃ position,
         active_positions r.2 = <[Market.symbol m := position]> (active_positions st)) ∧
  (∀ m token_amount formatted_amount,
     markets st !! market = Some m →
     hedge_amount st m = Some (token_amount, formatted_amount) →
     accepted (exchange before (spot_leg py_str st m formatted_amount)) = false →
     new_posts st r.2 = [spot_leg py_str st m formatted_amount] ∧
     r.1 = false ∧ active_positions r.2 = active_positions st) ∧
  ((markets st !! market = None ∨
    ∃ m, markets st !! market = Some m ∧ hedge_amount st m = None) →
     new_posts st r.2 = [] ∧ r.1 = false ∧ active_positions r.2 = active_positions st).
Proof.
  simpl. split; [|split].
  - run_hedge. hedge_cases; new_posts_simpl.
    all: try (intros [?|?]; done).
    intros _.
    match goal with
    | Hm : markets _ !! _ = Some ?m, Hf : format_fixed ?x _ = Some ?s |- _ => exists m, x, s
    end.
    split; [done|]. use_eqs. eauto 10.
  - intros m token_amount formatted_amount Hm (Hzero & -> & Hfmt)%hedge_amount_inv.
    run_hedge. rewrite Hm, Hzero, Hfmt.
    hedge_cases; by new_posts_simpl.
  - run_hedge. intros [Hm|(m & Hm & Hamount)]; rewrite Hm; [|revert Hamount];
      hedge_cases; by new_posts_simpl.
Qed.

(** C2 (the code departs from the claim). When the spot order is accepted
    and the answer to the perpetual order is an object whose status is not
    "ok", exactly one more order follows: the sale of the same amount of
    the spot asset at price "0", and the call returns [False] whatever the
    answer to that order. But when the perpetual order gets no answer
    ([_place_order] returns [None]) or an answer that is not an object, the
    call returns [False] with no order after the perpetual order: the spot
    leg is left open. *)
Theorem perp_failure_unwinds_only_on_rejection market funding_rate st m
    token_amount formatted_amount :
  markets st !! market = Some m →
  hedge_amount st m = Some (token_amount, formatted_amount) →
  let r := execute_funding_arb py_str exchange now market funding_rate st in
  let before := posts (trace st) in
  let spot := spot_leg py_str st m formatted_amount in
  let perp := perp_leg py_str st m formatted_amount in
  accepted (exchange before spot) = true →
  accepted (exchange (before ++ [spot]) perp) = false →
  r.1 = false ∧ active_positions r.2 = active_positions st ∧
  new_posts st r.2 =
    if is_object (exchange (before ++ [spot]) perp)
    then [spot; perp; unwind_leg m formatted_amount]
    else [spot; perp].
Proof.
  intros Hm (Hzero & -> & Hfmt)%hedge_amount_inv.
  run_hedge. rewrite Hm, Hzero, Hfmt.
  hedge_cases; by new_posts_simpl.
Qed.

(** C3 (as amended). The orders of [execute_funding_arb] do not depend on
    the funding rate it is given, whatever its sign. When the amount of the
    hedge can be computed, the first order is the purchase of the spot asset;
    nothing follows it when it is not accepted, and when it is accepted the
    sale of the perpetual follows, and after that at most the sale that
    closes the spot leg. When the amount cannot be computed there is no
    order. No order buys the perpetual and none sells the spot asset first. *)
Theorem hedge_direction_ignores_funding_sign market funding_rate st :
  let r := execute_funding_arb py_str exchange now market funding_rate st in
  let before := posts (trace st) in
  (∀ other_rate,
     new_posts st (execute_funding_arb py_str exchange now market other_rate st).2 =
     new_posts st r.2) ∧
  (∀ m token_amount formatted_amount,
     markets st !! market = Some m →
     hedge_amount st m = Some (token_amount, formatted_amount) →
     let spot := spot_leg py_str st m formatted_amount in
     let perp := perp_leg py_str st m formatted_amount in
     let unwind := unwind_leg m formatted_amount in
     (Order.a spot = Market.spot_asset_id m ∧ Order.b spot = true) ∧
     (Order.a perp = Market.perp_asset_id m ∧ Order.b perp = false) ∧
     (Order.a unwind = Market.spot_asset_id m ∧ Order.b unwind = false) ∧
     ∃ rest,
       new_posts st r.2 = spot :: rest ∧
       (accepted (exchange before spot) = false → rest = []) ∧
       (accepted (exchange before spot) = true → rest = [perp] ∨ rest = [perp; unwind])) ∧
  ((markets st !! market = None ∨
    ∃ m, markets st !! market = Some m ∧ hedge_amount st m = None) →
   new_posts st r.2 = []).
Proof.
  simpl. split; [|split].
  - intros other_rate. run_hedge. hedge_cases; by new_posts_simpl.
  - intros m token_amount formatted_amount Hm (Hzero & -> & Hfmt)%hedge_amount_inv.
    do 3 (split; [done|]).
    run_hedge. rewrite Hm, Hzero, Hfmt.
    hedge_cases; new_posts_simpl.
    all: eexists; (split; [reflexivity|]); split; intros ?; try done; eauto.
  - run_hedge. intros [Hm|(m & Hm & Hamount)]; rewrite Hm; [|revert Hamount];
      hedge_cases; by new_posts_simpl.
Qed.

(** C7. For a market with a positive mark price and a size precision [d]
    that is a precision, the amount of the hedge is the quotient of the
    notional by the mark price, written with [d] decimals: when the
    quotient is finite and not zero, the text is a numeral, with its sign
    and [d] digits after the point, of the integer nearest to the quotient
    scaled by [10^d], the even one of the two when it is half way between
    them; a quotient that is zero is written as zero. The first order is
    the purchase of the spot asset for that amount at the mark price times
    one plus the slippage; when it is accepted, the second order is the
    sale of the perpetual for the same amount at the mark price times one
    minus the slippage. A notional of 1000 at a mark price of 50000 with
    three decimals gives "0.020". *)
Theorem hedge_quantity_and_limit_prices market funding_rate st m :
  markets st !! market = Some m →
  (0 <? Market.mark_price m)%float = true →
  0 ≤ Market.size_decimals m ≤ INT_MAX →
  let d := Market.size_decimals m in
  let token_amount := (position_size_usd st / Market.mark_price m)%float in
  let r := execute_funding_arb py_str exchange now market funding_rate st in
  ∃ formatted_amount,
    format_fixed token_amount d = Some formatted_amount ∧
    (∀ negative mantissa exponent,
       Prim2SF token_amount = S754_finite negative mantissa exponent →
       let num := scaled_num mantissa exponent d in
       let den := scaled_den exponent in
       ∃ q, numeral_of negative q (Z.to_nat d) formatted_amount ∧
            0 ≤ q ∧
            Z.abs (2 * (q * den - num)) ≤ den ∧
            (Z.abs (2 * (q * den - num)) = den → Z.even q = true)) ∧
    (∀ negative,
       Prim2SF token_amount = S754_zero negative →
       numeral_of negative 0 (Z.to_nat d) formatted_amount) ∧
    let spot :=
      Order.make (Market.spot_asset_id m) true
        (py_str (Market.mark_price m * (1 + max_slippage st))%float)
        formatted_amount false "Gtc" in
    let perp :=
      Order.make (Market.perp_asset_id m) false
        (py_str (Market.mark_price m * (1 - max_slippage st))%float)
        formatted_amount false "Gtc" in
    (∃ rest, new_posts st r.2 = spot :: rest ∧
       (accepted (exchange (posts (trace st)) spot) = true →
        ∃ rest', rest = perp :: rest')) ∧
    format_fixed (1000 / 50000)%float 3 = Some "0.020"%string.
Proof.
  intros Hm Hpos Hd. simpl.
  apply float_pos_nonzero in Hpos.
  destruct (format_fixed (position_size_usd st / Market.mark_price m) (Market.size_decimals m))
    as [formatted_amount|] eqn:Hfmt; cycle 1.
  { unfold format_fixed in Hfmt.
    destruct (Z.ltb_spec (Market.size_decimals m) 0); [lia|].
    destruct (Z.ltb_spec INT_MAX (Market.size_decimals m)); [lia|]. done. }
  exists formatted_amount. split; [done|]. split; [|split; [|split]].
  - intros negative mantissa exponent Hfinite. unfold format_fixed in Hfmt.
    rewrite Hfinite in Hfmt. destruct (_ || _); [done|]. injection Hfmt as <-.
    pose proof (scaled_den_pos exponent) as Hden.
    pose proof (scaled_num_nonneg mantissa exponent (Market.size_decimals m) ltac:(lia)) as Hnum.
    eexists. split; [|split; [|split]].
    + apply fixed_point_numeral; [by apply round_half_even_nonneg|lia].
    + by apply round_half_even_nonneg.
    + by apply round_half_even_nearest.
    + by apply round_half_even_tie.
  - intros negative Hzero. unfold format_fixed in Hfmt.
    rewrite Hzero in Hfmt. destruct (_ || _); [done|]. injection Hfmt as <-.
    apply fixed_point_numeral; lia.
  - run_hedge. rewrite Hm, Hpos, Hfmt.
    hedge_cases; new_posts_simpl.
    all: eexists; (split; [reflexivity|]); intros ?; try done; eauto.
  - by vm_compute.
Qed.
(** What a call changes: the trace grows by records among which there is
    no [MsgFound] and, exactly when the call succeeds, one [MsgOpened] for
    the symbol of the market, which then is the key the ledger gains. *)
Lemma execute_funding_arb_effect market funding_rate st :
  let r := execute_funding_arb py_str exchange now market funding_rate st in
  markets r.2 = markets st ∧
  min_funding_rate r.2 = min_funding_rate st ∧
  ∃ es, trace r.2 = trace st ++ es ∧ found es = [] ∧
    if r.1 then
      ∃ m position,
        markets st !! market = Some m ∧ opened es = [Market.symbol m] ∧
        active_positions r.2 = <[Market.symbol m := position]> (active_positions st)
    else opened es = [] ∧ active_positions r.2 = active_positions st.
Proof.
  run_hedge. hedge_cases.
  all: do 2 (split; [done|]).
  all: try (by exists []; rewrite app_nil_r).
  all: eexists; (split; [reflexivity|]); (split; [done|]); simpl; eauto.
Qed.
End Hedge.

(** ** Market Data Feed *)

Lemma set_quotes_again r px r0 px0 m :
  Market.set_mark_price px (Market.set_funding_rate r
    (Market.set_mark_price px0 (Market.set_funding_rate r0 m))) =
  Market.set_mark_price px (Market.set_funding_rate r m).
Proof. by destruct m. Qed.

Section Feed.
Context (py_float : string → option float) (sort_order : list float → list nat).

(** The keys of the catalog never change, and the opportunities depend on
    the catalog through its keys only. *)
Lemma scan_contexts_dom names ctxs : ∀ idx mk acc,
  dom (scan_contexts py_float idx ctxs names mk acc).2 = dom mk.
Proof.
  induction ctxs as [|ctx ctxs IH]; intros idx mk acc; simpl; [done|].
  destruct (names !! idx) as [symbol|]; [|done].
  destruct (mk !! symbol) as [m|] eqn:Hm; [|by rewrite IH].
  assert (symbol ∈ dom mk) as Hin by (apply elem_of_dom; eauto).
  destruct (py_float (Ctx.funding ctx)); [|done].
  destruct (py_float (Ctx.markPx ctx)); simpl.
  - rewrite IH, dom_insert_L. set_solver.
  - rewrite dom_insert_L. set_solver.
Qed.

Lemma scan_contexts_keys_only names ctxs : ∀ idx mk1 mk2 acc,
  dom mk1 = dom mk2 →
  (scan_contexts py_float idx ctxs names mk1 acc).1 =
  (scan_contexts py_float idx ctxs names mk2 acc).1.
Proof.
  induction ctxs as [|ctx ctxs IH]; intros idx mk1 mk2 acc Hdom; simpl; [done|].
  destruct (names !! idx) as [symbol|]; [|done].
  assert (is_Some (mk1 !! symbol) ↔ is_Some (mk2 !! symbol)) as Hsome
    by by rewrite <- !elem_of_dom, Hdom.
  destruct (mk1 !! symbol) as [m1|], (mk2 !! symbol) as [m2|].
  - destruct (py_float (Ctx.funding ctx)); [|done].
    destruct (py_float (Ctx.markPx ctx)); [|done]. simpl.
    apply IH. by rewrite !dom_insert_L, Hdom.
  - by destruct Hsome as [[] _].
  - by destruct Hsome as [_ []].
  - by apply IH.
Qed.

Lemma scan_contexts_spec names ctxs : ∀ idx mk acc opportunities mk',
  scan_contexts py_float idx ctxs names mk acc = (Some opportunities, mk') →
  ∃ new,
    opportunities = acc ++ new ∧
    (∀ o, o ∈ new → is_Some (mk !! Opp.symbol o)) ∧
    (∀ k ctx symbol m,
       ctxs !! k = Some ctx → names !! (idx + k)%nat = Some symbol → mk !! symbol = Some m →
       ∃ r px,
         py_float (Ctx.funding ctx) = Some r ∧ py_float (Ctx.markPx ctx) = Some px ∧
         Opp.make symbol (r * 365 * 100)%float px symbol ∈ new ∧
         ((∀ j, (k < j < length ctxs)%nat → names !! (idx + j)%nat ≠ Some symbol) →
          mk' !! symbol =
            Some (Market.set_mark_price px (Market.set_funding_rate (r * 365 * 100)%float m)))) ∧
    (∀ symbol,
       (∀ k, (k < length ctxs)%nat → names !! (idx + k)%nat ≠ Some symbol) →
       mk' !! symbol = mk !! symbol).
Proof.
  induction ctxs as [|ctx ctxs IH]; intros idx mk acc opportunities mk'; simpl.
  - intros [= <- <-]. exists []. rewrite app_nil_r. split; [done|].
    split; [by intros o ?%elem_of_nil|]. split; [|done].
    intros k ? ? ? Hk. by rewrite lookup_nil in Hk.
  - destruct (names !! idx) as [symbol|] eqn:Hname; [|done].
    destruct (mk !! symbol) as [m|] eqn:Hm.
    + destruct (py_float (Ctx.funding ctx)) as [r|] eqn:Hr; [|done].
      destruct (py_float (Ctx.markPx ctx)) as [px|] eqn:Hpx; [|done]. simpl.
      rewrite insert_insert_eq.
      intros Hscan. apply IH in Hscan as (new & -> & Hknown & Hquotes & Hother).
      exists (Opp.make symbol (r * 365 * 100)%float px symbol :: new).
      split; [by rewrite <- app_assoc|]. split; [|split].
      * intros o [->|Ho]%elem_of_cons; [simpl; eauto|].
        apply Hknown in Ho.
        destruct (decide (symbol = Opp.symbol o)) as [Heq|Hne]; [rewrite <- Heq; eauto|].
        by rewrite lookup_insert_ne in Ho.
      * intros [|k] ctx' symbol' m' Hctx Hname' Hm'; simpl in Hctx.
        -- injection Hctx as <-. rewrite Nat.add_0_r, Hname in Hname'.
           injection Hname' as <-. rewrite Hm in Hm'. injection Hm' as <-.
           exists r, px. split; [done|]. split; [done|]. split; [left|].
           intros Hlast. rewrite Hother, lookup_insert_eq; [done|].
           intros j Hj. replace (S idx + j)%nat with (idx + S j)%nat by lia.
           apply Hlast. lia.
        -- replace (idx + S k)%nat with (S idx + k)%nat in Hname' by lia.
           destruct (decide (symbol = symbol')) as [<-|Hne].
           ++ rewrite Hm in Hm'. injection Hm' as <-.
              destruct (Hquotes k ctx' symbol _ Hctx Hname' (lookup_insert_eq _ _ _))
                as (r' & px' & ? & ? & ? & Hfinal).
              exists r', px'. split; [done|]. split; [done|]. split; [by right|].
              intros Hlast. rewrite Hfinal; [by rewrite set_quotes_again|].
              intros j Hj. replace (S idx + j)%nat with (idx + S j)%nat by lia.
              apply Hlast. lia.
           ++ assert (<[symbol := Market.set_mark_price px
                          (Market.set_funding_rate (r * 365 * 100)%float m)]> mk !! symbol'
                      = Some m') as Hm'' by by rewrite lookup_insert_ne.
              destruct (Hquotes k ctx' symbol' _ Hctx Hname' Hm'')
                as (r' & px' & ? & ? & ? & Hfinal).
              exists r', px'. split; [done|]. split; [done|]. split; [by right|].
              intros Hlast. apply Hfinal.
              intros j Hj. replace (S idx + j)%nat with (idx + S j)%nat by lia.
              apply Hlast. lia.
      * intros symbol' Hnot. rewrite Hother.
        -- rewrite lookup_insert_ne; [done|]. intros <-.
           apply (Hnot 0%nat); [lia|]. by rewrite Nat.add_0_r.
        -- intros k Hk. replace (S idx + k)%nat with (idx + S k)%nat by lia.
           apply Hnot. lia.
    + intros Hscan. apply IH in Hscan as (new & -> & Hknown & Hquotes & Hother).
      exists new. split; [done|]. split; [done|]. split.
      * intros [|k] ctx' symbol' m' Hctx Hname' Hm'; simpl in Hctx.
        -- rewrite Nat.add_0_r, Hname in Hname'. injection Hname' as <-. congruence.
        -- replace (idx + S k)%nat with (S idx + k)%nat in Hname' by lia.
           destruct (Hquotes k ctx' symbol' m' Hctx Hname' Hm')
             as (r' & px' & ? & ? & ? & Hfinal).
           exists r', px'. split; [done|]. split; [done|]. split; [done|].
           intros Hlast. apply Hfinal.
           intros j Hj. replace (S idx + j)%nat with (idx + S j)%nat by lia.
           apply Hlast. lia.
      * intros symbol' Hnot. apply Hother.
        intros k Hk. replace (S idx + k)%nat with (idx + S k)%nat by lia.
        apply Hnot. lia.
Qed.

Lemma scan_contexts_app names ctxs1 ctxs2 : ∀ idx mk acc,
  scan_contexts py_float idx (ctxs1 ++ ctxs2) names mk acc =
  match scan_contexts py_float idx ctxs1 names mk acc with
  | (Some opportunities, mk1) =>
      scan_contexts py_float (idx + length ctxs1) ctxs2 names mk1 opportunities
  | failure => failure
  end.
Proof.
  induction ctxs1 as [|ctx ctxs1 IH]; intros idx mk acc; simpl.
  - by rewrite Nat.add_0_r.
  - destruct (names !! idx) as [symbol|]; [|done].
    replace (idx + S (length ctxs1))%nat with (S idx + length ctxs1)%nat by lia.
    destruct (mk !! symbol); [|apply IH].
    destruct (py_float (Ctx.funding ctx)); [|done].
    destruct (py_float (Ctx.markPx ctx)); [|done]. apply IH.
Qed.

(** The loop completes exactly on the snapshots all of whose entries it
    gets past. *)
Lemma scan_contexts_completes names ctxs : ∀ idx mk acc,
  (∀ k ctx, ctxs !! k = Some ctx →
     ∃ symbol, names !! (idx + k)%nat = Some symbol ∧
       (is_Some (mk !! symbol) →
        is_Some (py_float (Ctx.funding ctx)) ∧ is_Some (py_float (Ctx.markPx ctx)))) →
  is_Some (scan_contexts py_float idx ctxs names mk acc).1.
Proof.
  induction ctxs as [|ctx ctxs IH]; intros idx mk acc Hok; simpl; [by eexists|].
  destruct (Hok 0%nat ctx eq_refl) as (symbol & Hname & Hparse).
  rewrite Nat.add_0_r in Hname. rewrite Hname.
  assert (∀ mk' : gmap string Market.t, (∀ s, is_Some (mk' !! s) → is_Some (mk !! s)) →
          ∀ k ctx', ctxs !! k = Some ctx' →
            ∃ symbol', names !! (S idx + k)%nat = Some symbol' ∧
              (is_Some (mk' !! symbol') →
               is_Some (py_float (Ctx.funding ctx')) ∧ is_Some (py_float (Ctx.markPx ctx'))))
    as Hrest.
  { intros mk' Hsub k ctx' Hk. destruct (Hok (S k) ctx' Hk) as (symbol' & Hname' & Hparse').
    exists symbol'. split; [by replace (S idx + k)%nat with (idx + S k)%nat by lia|].
    intros Hs. by apply Hparse', Hsub. }
  destruct (mk !! symbol) as [m|] eqn:Hm.
  - destruct Hparse as [[r ->] [px ->]]; [by eexists|]. simpl. apply IH, Hrest.
    intros s. rewrite !lookup_insert_is_Some. intros [<-|[_ [<-|[_ ?]]]]; by eauto.
  - apply IH, Hrest. done.
Qed.

Lemma scan_contexts_readable names ctxs : ∀ idx mk acc opportunities mk',
  scan_contexts py_float idx ctxs names mk acc = (Some opportunities, mk') →
  ∀ k ctx, ctxs !! k = Some ctx →
    ∃ symbol, names !! (idx + k)%nat = Some symbol ∧
      (is_Some (mk !! symbol) →
       is_Some (py_float (Ctx.funding ctx)) ∧ is_Some (py_float (Ctx.markPx ctx))).
Proof.
  induction ctxs as [|ctx ctxs IH]; intros idx mk acc opportunities mk'; simpl.
  { intros _ k ctx Hk. by rewrite lookup_nil in Hk. }
  destruct (names !! idx) as [symbol|] eqn:Hname; [|done].
  destruct (mk !! symbol) as [m|] eqn:Hm.
  - destruct (py_float (Ctx.funding ctx)) as [r|] eqn:Hr; [|done].
    destruct (py_float (Ctx.markPx ctx)) as [px|] eqn:Hpx; [|done]. simpl.
    intros Hscan [|k] ctx' Hk; simpl in Hk.
    + injection Hk as <-. exists symbol. rewrite Nat.add_0_r, Hr, Hpx. by eauto.
    + destruct (IH _ _ _ _ _ Hscan k ctx' Hk) as (symbol' & Hname' & Hparse').
      exists symbol'. split; [by replace (idx + S k)%nat with (S idx + k)%nat by lia|].
      intros Hs. apply Hparse'. rewrite !lookup_insert_is_Some.
      destruct (decide (symbol = symbol')); by eauto.
  - intros Hscan [|k] ctx' Hk; simpl in Hk.
    + injection Hk as <-. exists symbol. rewrite Nat.add_0_r, Hm.
      split; [done|]. by intros [].
    + destruct (IH _ _ _ _ _ Hscan k ctx' Hk) as (symbol' & Hname' & Hparse').
      exists symbol'. split; [by replace (idx + S k)%nat with (S idx + k)%nat by lia|done].
Qed.

(** Whether the loop completes or not, it leaves alone the markets that no
    entry names. *)
Lemma scan_contexts_untouched names ctxs symbol : ∀ idx mk acc,
  (∀ k, (k < length ctxs)%nat → names !! (idx + k)%nat ≠ Some symbol) →
  (scan_contexts py_float idx ctxs names mk acc).2 !! symbol = mk !! symbol.
Proof.
  induction ctxs as [|ctx ctxs IH]; intros idx mk acc Hnot; simpl; [done|].
  assert (∀ k, (k < length ctxs)%nat → names !! (S idx + k)%nat ≠ Some symbol) as Hrest.
  { intros k Hk. replace (S idx + k)%nat with (idx + S k)%nat by lia. apply Hnot. simpl. lia. }
  destruct (names !! idx) as [symbol'|] eqn:Hname; [|done].
  assert (symbol' ≠ symbol) as Hne.
  { intros ->. apply (Hnot 0%nat); [simpl; lia|]. by rewrite Nat.add_0_r. }
  destruct (mk !! symbol') as [m|]; [|by apply IH].
  destruct (py_float (Ctx.funding ctx)) as [r|]; [|done].
  destruct (py_float (Ctx.markPx ctx)) as [px|]; simpl.
  - rewrite IH by done. by rewrite !lookup_insert_ne.
  - by rewrite lookup_insert_ne.
Qed.

(** The rates of the opportunities are the annualized rates of the
    snapshot. *)
Lemma scan_contexts_rates names ctxs : ∀ idx mk acc opportunities mk',
  scan_contexts py_float idx ctxs names mk acc = (Some opportunities, mk') →
  (∀ ctx raw, ctx ∈ ctxs → py_float (Ctx.funding ctx) = Some raw →
              is_number (raw * 365 * 100)%float = true) →
  Forall (λ o, is_number (abs_rate o) = true) acc →
  Forall (λ o, is_number (abs_rate o) = true) opportunities.
Proof.
  induction ctxs as [|ctx ctxs IH]; intros idx mk acc opportunities mk'; simpl.
  { by intros [= <- <-]. }
  destruct (names !! idx) as [symbol|]; [|done].
  destruct (mk !! symbol) as [m|].
  - destruct (py_float (Ctx.funding ctx)) as [r|] eqn:Hr; [|done].
    destruct (py_float (Ctx.markPx ctx)) as [px|]; [|done]. simpl.
    intros Hscan Hnum Hacc. eapply IH; [exact Hscan| |].
    + intros ctx' raw Hin. apply Hnum. by right.
    + apply Forall_app. split; [done|]. constructor; [|done].
      unfold abs_rate. simpl. rewrite is_number_abs. apply (Hnum ctx); [by left|done].
  - intros Hscan Hnum Hacc. eapply IH; [exact Hscan| |done].
    intros ctx' raw Hin. apply Hnum. by right.
Qed.

Lemma get_funding_opportunities_markets contexts st :
  markets (get_funding_opportunities py_float sort_order (Some contexts) st).2 =
  (scan_contexts py_float 0 (asset_ctxs contexts) (universe contexts) (markets st) []).2.
Proof.
  unfold get_funding_opportunities.
  by destruct (scan_contexts _ _ _ _ _ _) as [[opportunities|] mk].
Qed.

(** C8 (as amended). An entry of the snapshot that the loop reaches, that
    is, such that the loop gets past it and past every entry before it, and
    whose symbol is in the catalog, has a funding rate [raw] and a mark
    price that [float] accepts; when the loop has processed the entry, the
    market object of the symbol, updated in place, carries the rate
    [raw * 365 * 100] (in the arithmetic of floats, as the code computes it)
    and that mark price, and its other fields are unchanged; it still does
    when the call ends, unless a later entry names the symbol again; when
    the loop gets past every entry, the entry is among the opportunities
    returned, with that rate and mark price. When the loop
    does not get past some entry, the call returns no opportunity. Entries
    whose symbol is not in the catalog yield nothing and no market appears
    for them; markets that no entry names are unchanged; the ledger is
    unchanged. *)
Theorem refresh_annualizes_in_place contexts st :
  let r := get_funding_opportunities py_float sort_order (Some contexts) st in
  let n := length (asset_ctxs contexts) in
  (∀ i ctx symbol m,
     asset_ctxs contexts !! i = Some ctx → universe contexts !! i = Some symbol →
     markets st !! symbol = Some m →
     readable_upto py_float (markets st) contexts (S i) →
     ∃ raw px,
       py_float (Ctx.funding ctx) = Some raw ∧ py_float (Ctx.markPx ctx) = Some px ∧
       let updated :=
         Market.make (Market.symbol m) (Market.perp_asset_id m) (Market.spot_asset_id m)
                     (raw * 365 * 100)%float px (Market.size_decimals m) in
       (scan_contexts py_float 0 (take (S i) (asset_ctxs contexts)) (universe contexts)
          (markets st) []).2 !! symbol = Some updated ∧
       ((∀ j, (i < j < n)%nat → universe contexts !! j ≠ Some symbol) →
        markets r.2 !! symbol = Some updated) ∧
       (readable_upto py_float (markets st) contexts n →
        Opp.make symbol (raw * 365 * 100)%float px symbol ∈ r.1)) ∧
  (¬ readable_upto py_float (markets st) contexts n → r.1 = []) ∧
  dom (markets r.2) = dom (markets st) ∧
  (∀ symbol,
     (∀ i, (i < n)%nat → universe contexts !! i ≠ Some symbol) →
     markets r.2 !! symbol = markets st !! symbol) ∧
  (∀ o, o ∈ r.1 → is_Some (markets st !! Opp.symbol o)) ∧
  active_positions r.2 = active_positions st.
Proof.
  cbv zeta. rewrite get_funding_opportunities_markets.
  destruct contexts as [names ctxs]. cbn [asset_ctxs universe].
  split; [|split; [|split; [|split; [|split]]]].
  - intros i ctx symbol m Hctx Hname Hm Hread.
    assert (i < length ctxs)%nat as Hi by by eapply lookup_lt_Some.
    assert (length (take (S i) ctxs) = S i) as Hlen by (rewrite length_take; lia).
    destruct (scan_contexts_completes names (take (S i) ctxs) 0 (markets st) [])
      as [opportunities1 Hpre1].
    { intros k ctx' [Hk Hlt]%lookup_take_Some. by apply (Hread k Hlt). }
    destruct (scan_contexts py_float 0 (take (S i) ctxs) names (markets st) [])
      as [o1 mk1] eqn:Hpre. simpl in Hpre1. subst o1.
    pose proof Hpre as Hspec.
    apply scan_contexts_spec in Hspec as (new1 & _ & _ & Hquotes & _).
    destruct (Hquotes i ctx symbol m) as (raw & px & Hraw & Hpx & _ & Hfinal);
      [by rewrite lookup_take_lt by lia|done|done|].
    assert (mk1 !! symbol =
            Some (Market.make (Market.symbol m) (Market.perp_asset_id m) (Market.spot_asset_id m)
                    (raw * 365 * 100)%float px (Market.size_decimals m))) as Hmk1.
    { rewrite Hfinal; [done|]. intros j Hj. lia. }
    exists raw, px. do 2 (split; [done|]). cbv zeta. split; [exact Hmk1|]. split.
    + intros Hlast. rewrite <- (take_drop (S i) ctxs) at 1.
      rewrite scan_contexts_app, Hpre, scan_contexts_untouched; [exact Hmk1|].
      intros k Hk. rewrite Hlen. rewrite length_drop in Hk. apply Hlast. lia.
    + intros Hall. unfold get_funding_opportunities. simpl.
      destruct (scan_contexts_completes names ctxs 0 (markets st) []) as [opportunities Hcomplete].
      { intros k ctx' Hk. apply (Hall k); [by eapply lookup_lt_Some|done]. }
      destruct (scan_contexts py_float 0 ctxs names (markets st) []) as [o mk] eqn:Hscan.
      simpl in Hcomplete. subst o. simpl. rewrite list_sort_perm.
      apply scan_contexts_spec in Hscan as (new & -> & _ & Hquotes' & _).
      destruct (Hquotes' i ctx symbol m Hctx Hname Hm) as (raw' & px' & Hraw' & Hpx' & Hin & _).
      assert (raw' = raw) as -> by congruence. assert (px' = px) as -> by congruence. done.
  - intros Hnot. unfold get_funding_opportunities. simpl.
    destruct (scan_contexts py_float 0 ctxs names (markets st) []) as [[opportunities|] mk] eqn:Hscan;
      [|done].
    destruct Hnot. intros i Hi ctx Hctx.
    by apply (scan_contexts_readable _ _ _ _ _ _ _ Hscan i ctx).
  - apply scan_contexts_dom.
  - intros symbol Hnot. by apply scan_contexts_untouched.
  - intros o. unfold get_funding_opportunities. simpl.
    destruct (scan_contexts py_float 0 ctxs names (markets st) []) as [[opportunities|] mk] eqn:Hscan;
      simpl; [|by intros ?%elem_of_nil].
    rewrite list_sort_perm.
    apply scan_contexts_spec in Hscan as (new & -> & Hknown & _). apply Hknown.
  - unfold get_funding_opportunities. simpl.
    by destruct (scan_contexts _ _ _ _ _ _) as [[opportunities|] mk].
Qed.

(** C10 (as amended). A second call on the same snapshot returns the same
    list, and the list is a rearrangement of the opportunities in snapshot
    order. When no rate of the snapshot annualizes to a NaN, the list is in
    non-increasing order of the absolute rate, and opportunities of equal
    absolute rate keep snapshot order. *)
Theorem ranking_descending_when_rates_are_numbers response st :
  let ranked := (get_funding_opportunities py_float sort_order response st).1 in
  let opportunities := unsorted_opportunities py_float response st in
  (get_funding_opportunities py_float sort_order response
     (get_funding_opportunities py_float sort_order response st).2).1 = ranked ∧
  ranked ≡ₚ opportunities ∧
  (rates_are_numbers py_float response →
   non_increasing abs_rate ranked ∧ ties_in_order abs_rate opportunities ranked).
Proof.
  simpl. split; [|split].
  - unfold get_funding_opportunities. destruct response as [contexts|]; simpl; [|done].
    pose proof (scan_contexts_dom (universe contexts) (asset_ctxs contexts) 0 (markets st) [])
      as Hdom.
    pose proof (scan_contexts_keys_only (universe contexts) (asset_ctxs contexts) 0
                  (scan_contexts py_float 0 (asset_ctxs contexts) (universe contexts)
                     (markets st) []).2 (markets st) [] Hdom) as Hsame.
    destruct (scan_contexts py_float 0 (asset_ctxs contexts) (universe contexts)
                (markets st) []) as [[opportunities|] mk]; simpl in *.
    + destruct (scan_contexts _ _ _ _ mk _) as [[opportunities'|] mk2]; simpl in *; congruence.
    + destruct (scan_contexts _ _ _ _ mk _) as [[opportunities'|] mk2]; simpl in *; congruence.
  - unfold get_funding_opportunities, unsorted_opportunities.
    destruct response as [contexts|]; [|done].
    destruct (scan_contexts _ _ _ _ _ _) as [[opportunities|] mk]; simpl; [|done].
    apply list_sort_perm.
  - intros Hnum. unfold get_funding_opportunities, unsorted_opportunities.
    assert (non_increasing abs_rate [] ∧ ties_in_order abs_rate [] []) as Hnil.
    { split; [|done]. intros i j x y _ Hi. by rewrite lookup_nil in Hi. }
    destruct response as [contexts|]; [|done].
    destruct (scan_contexts _ _ _ _ _ _) as [[opportunities|] mk] eqn:Hscan; simpl; [|done].
    assert (Forall (λ o, is_number (abs_rate o) = true) opportunities) as Hall.
    { eapply scan_contexts_rates; [exact Hscan| |done].
      intros ctx raw Hin. by apply (Hnum contexts). }
    rewrite list_sort_numbers by done. split.
    + by apply StronglySorted_non_increasing, sort_reverse_sorted.
    + apply sort_reverse_ties.
Qed.
Context (py_str : float → string)
        (exchange : list Order.t → Order.t → option Json) (now : list Event → Z).

(** C9. When the quote fetch fails, [get_funding_opportunities] returns
    the empty list, and the iteration of the loop logs the failure, logs
    that there are no opportunities and sleeps: it calls
    [execute_funding_arb] for no symbol, submits no order and leaves the
    ledger as it was. *)
Theorem failed_fetch_skips_cycle response st :
  fetch_fails py_float response st →
  (get_funding_opportunities py_float sort_order response st).1 = [] ∧
  let st' := cycle py_float sort_order py_str exchange now response st in
  trace st' =
    trace st ++
    match response with None => [Log ERROR MsgRequestFailed] | Some _ => [] end ++
    [Log ERROR MsgFetchFailed; Log INFO MsgNoOpportunities; Sleep 60] ∧
  posts (trace st') = posts (trace st) ∧
  found (trace st') = found (trace st) ∧
  active_positions st' = active_positions st.
Proof.
  unfold fetch_fails, cycle, get_funding_opportunities.
  destruct response as [contexts|]; simpl.
  - destruct (scan_contexts _ _ _ _ _ _) as [[opportunities|] mk]; [done|]. intros _. simpl.
    rewrite <- !app_assoc. simpl. rewrite posts_app, found_app. simpl.
    by rewrite !app_nil_r.
  - intros _. rewrite <- !app_assoc. simpl. rewrite posts_app, found_app. simpl.
    by rewrite !app_nil_r.
Qed.

End Feed.

(** C10 (as stated, refuted). The snapshot quotes A at 0.001, N at "nan" and
    B at 0.002 per period: every comparison of a neighbour with the NaN key
    is false, the sort moves nothing, and A (36.5) stays before B (73). *)
Lemma nan_rate_breaks_ranking :
  (Opp.symbol <$> (get_funding_opportunities scenario_float scenario_order abn_snapshot abn_bot).1
     = ["A"; "N"; "B"]%string) ∧
  ¬ non_increasing abs_rate (get_funding_opportunities scenario_float scenario_order abn_snapshot abn_bot).1.
Proof.
  split; [by vm_compute|]. intros Hsorted.
  assert (∃ x y, (get_funding_opportunities scenario_float scenario_order abn_snapshot abn_bot).1 !! 0%nat
                   = Some x ∧
                 (get_funding_opportunities scenario_float scenario_order abn_snapshot abn_bot).1 !! 2%nat
                   = Some y ∧
                 (abs_rate y <=? abs_rate x)%float = false) as (x & y & Hx & Hy & Hle).
  { eexists _, _. split; [by vm_compute|]. split; [by vm_compute|]. by vm_compute. }
  rewrite (Hsorted 0%nat 2%nat x y) in Hle; [done|lia|done|done].
Qed.

(** ** Control Loop *)

Lemma found_nonempty (t1 t2 : list Event) symbol rate :
  found (t1 ++ Log INFO (MsgFound symbol rate) :: t2) ≠ [].
Proof. rewrite found_app. simpl. by destruct (found t1). Qed.

Lemma calls_fresh_quiet (t es : list Event) :
  calls_fresh t → found es = [] → calls_fresh (t ++ es).
Proof.
  intros Hfresh Hquiet t1 symbol rate t2 Heq.
  apply app_eq_inv in Heq as [(k & -> & Hk)|(k & -> & Hk)].
  - destruct k as [|e k]; simpl in Hk.
    + subst es. by destruct (found_nonempty [] t2 symbol rate).
    + injection Hk as <- ->. by eapply Hfresh.
  - subst es. by destruct (found_nonempty k t2 symbol rate).
Qed.

Lemma calls_fresh_call (t : list Event) symbol rate :
  calls_fresh t → symbol ∉ opened t → calls_fresh (t ++ [Log INFO (MsgFound symbol rate)]).
Proof.
  intros Hfresh Hnew t1 symbol' rate' t2 Heq.
  destruct t2 as [|e t2 _] using rev_ind.
  - apply app_inj_tail in Heq as [-> [= -> ->]]. done.
  - rewrite app_comm_cons, app_assoc in Heq. apply app_inj_tail in Heq as [-> _].
    by eapply Hfresh.
Qed.

Lemma loop_invariant_quiet st st' es :
  loop_invariant st →
  catalog_wf (markets st') →
  active_positions st' = active_positions st →
  trace st' = trace st ++ es → found es = [] → opened es = [] →
  loop_invariant st'.
Proof.
  intros [Hcat Hled Honce Hfresh] Hcat' Hap Htrace Hfound Hopened.
  split; [done|..]; rewrite ?Hap, Htrace, ?opened_app, ?Hopened, ?app_nil_r; try done.
  by apply calls_fresh_quiet.
Qed.

Lemma initialize_markets_wf perps spots : catalog_wf (initialize_markets perps spots).
Proof.
  intros key m. unfold initialize_markets. rewrite map_markets_lookup, lookup_empty.
  destruct (find_spot key spots); [|done].
  destruct (last_named key perps) as [[i perp]|]; [|done]. by intros [= <-].
Qed.

Lemma new_bot_invariant min_rate usd slippage perps spots :
  loop_invariant (new_bot min_rate usd slippage perps spots).
Proof.
  split; simpl.
  - apply initialize_markets_wf.
  - by rewrite dom_empty_L.
  - constructor.
  - intros [|e t1] symbol rate t2; [done|]. intros [= _ Heq]. by destruct t1.
Qed.

Section Control.
Context (py_float : string → option float) (sort_order : list float → list nat)
        (py_str : float → string)
        (exchange : list Order.t → Order.t → option Json) (now : list Event → Z).

Lemma scan_contexts_wf names ctxs : ∀ idx mk acc,
  catalog_wf mk → Forall (λ o, Opp.market o = Opp.symbol o) acc →
  catalog_wf (scan_contexts py_float idx ctxs names mk acc).2 ∧
  ∀ opportunities,
    (scan_contexts py_float idx ctxs names mk acc).1 = Some opportunities →
    Forall (λ o, Opp.market o = Opp.symbol o) opportunities.
Proof.
  induction ctxs as [|ctx ctxs IH]; intros idx mk acc Hwf Hacc; simpl.
  - split; [done|]. by intros ? [= <-].
  - destruct (names !! idx) as [symbol|]; [|done].
    destruct (mk !! symbol) as [m|] eqn:Hm; [|by apply IH].
    assert (∀ m', Market.symbol m' = symbol → catalog_wf (<[symbol := m']> mk)) as Hins.
    { intros m' Hsym key m''. rewrite lookup_insert. case_decide; [|by apply Hwf].
      intros [= <-]. congruence. }
    apply Hwf in Hm.
    destruct (py_float (Ctx.funding ctx)); [|done].
    destruct (py_float (Ctx.markPx ctx)); simpl.
    + rewrite insert_insert_eq. apply IH; [by apply Hins|].
      apply Forall_app. split; [done|]. by constructor.
    + split; [by apply Hins|done].
Qed.

Lemma get_funding_opportunities_invariant response st :
  loop_invariant st →
  loop_invariant (get_funding_opportunities py_float sort_order response st).2 ∧
  min_funding_rate (get_funding_opportunities py_float sort_order response st).2 = min_funding_rate st ∧
  Forall (λ o, Opp.market o = Opp.symbol o) (get_funding_opportunities py_float sort_order response st).1.
Proof.
  intros Hinv. unfold get_funding_opportunities.
  destruct response as [contexts|]; simpl.
  - destruct (scan_contexts_wf (universe contexts) (asset_ctxs contexts) 0 (markets st) []
                (inv_catalog _ Hinv) (Forall_nil_2 _)) as [Hwf Hopps].
    destruct (scan_contexts _ _ _ _ _ _) as [[opportunities|] mk]; simpl in *.
    + split; [|split; [done|]].
      * apply (loop_invariant_quiet st _ []); try done. by rewrite app_nil_r.
      * rewrite list_sort_perm. by apply Hopps.
    + split; [|done]. by apply (loop_invariant_quiet st _ [Log ERROR MsgFetchFailed]).
  - split; [|done].
    apply (loop_invariant_quiet st _ [Log ERROR MsgRequestFailed; Log ERROR MsgFetchFailed]);
      try done; [apply Hinv|]. simpl. by rewrite <- app_assoc.
Qed.

Lemma consider_invariant opp st :
  loop_invariant st → Opp.market opp = Opp.symbol opp →
  loop_invariant (consider py_str exchange now opp st) ∧
  min_funding_rate (consider py_str exchange now opp st) = min_funding_rate st.
Proof.
  intros Hinv Href. unfold consider.
  destruct (min_funding_rate st <=? abs (Opp.funding_rate opp))%float; [|done].
  destruct (active_positions st !! Opp.symbol opp) eqn:Hheld; [done|].
  set (st1 := log INFO (MsgFound (Opp.symbol opp) (Opp.funding_rate opp)) st).
  pose proof (execute_funding_arb_effect py_str exchange now (Opp.market opp)
                (Opp.funding_rate opp) st1) as (Hmk & Hmin & es & Htrace & Hquiet & Hres).
  simpl in Hmk, Hmin, Htrace, Hres.
  destruct Hinv as [Hcat Hled Honce Hfresh].
  assert (Opp.symbol opp ∉ opened (trace st)) as Hnew.
  { intros Hin. apply not_elem_of_dom in Hheld. apply Hheld. rewrite Hled.
    by apply elem_of_list_to_set. }
  assert (calls_fresh (trace st1 ++ es)) as Hfresh'.
  { apply calls_fresh_quiet; [|done]. by apply calls_fresh_call. }
  destruct (execute_funding_arb py_str exchange now (Opp.market opp) (Opp.funding_rate opp) st1)
    as [success st2]; simpl in *.
  destruct success; (split; [|done]).
  - destruct Hres as (m & position & Hm & Hopened & Hap).
    apply Hcat in Hm. rewrite Href in Hm. rewrite Hm in *.
    assert (opened (trace st2) = opened (trace st) ++ [Opp.symbol opp]) as Hop.
    { rewrite Htrace, !opened_app, Hopened. simpl. by rewrite app_nil_r. }
    split; simpl; rewrite ?opened_app, ?Hop; simpl; rewrite ?app_nil_r.
    + by rewrite Hmk.
    + rewrite Hap, dom_insert_L, Hled, list_to_set_app_L. set_solver.
    + apply NoDup_app. split; [done|]. split; [|apply NoDup_singleton].
      intros x Hx ->%list_elem_of_singleton. done.
    + apply calls_fresh_quiet; [by rewrite Htrace|done].
  - destruct Hres as [Hopened Hap].
    assert (opened (trace st2) = opened (trace st)) as Hop.
    { rewrite Htrace, !opened_app, Hopened. simpl. by rewrite !app_nil_r. }
    split; simpl; rewrite ?opened_app, ?Hop; simpl; rewrite ?app_nil_r.
    + by rewrite Hmk.
    + by rewrite Hap.
    + done.
    + apply calls_fresh_quiet; [by rewrite Htrace|done].
Qed.

Lemma consider_all_invariant opportunities : ∀ st,
  loop_invariant st → Forall (λ o, Opp.market o = Opp.symbol o) opportunities →
  loop_invariant (consider_all py_str exchange now opportunities st) ∧
  min_funding_rate (consider_all py_str exchange now opportunities st) = min_funding_rate st.
Proof.
  induction opportunities as [|opp opportunities IH]; intros st Hinv Hrefs; simpl; [done|].
  apply Forall_cons in Hrefs as [Href Hrefs].
  destruct (consider_invariant opp st Hinv Href) as [Hinv' Hmin].
  destruct (IH _ Hinv' Hrefs) as [Hinv'' Hmin']. split; [done|]. by rewrite Hmin'.
Qed.

Lemma log_entries_quiet (opportunities : list Opp.t) : ∀ st,
  let st' := foldl (λ st opp, log INFO (MsgTopEntry (Opp.symbol opp) (Opp.funding_rate opp)) st)
                   st opportunities in
  markets st' = markets st ∧ active_positions st' = active_positions st ∧
  min_funding_rate st' = min_funding_rate st ∧
  ∃ es, trace st' = trace st ++ es ∧ found es = [] ∧ opened es = [].
Proof.
  induction opportunities as [|opp opportunities IH]; intros st; simpl.
  - repeat split. exists []. by rewrite app_nil_r.
  - destruct (IH (log INFO (MsgTopEntry (Opp.symbol opp) (Opp.funding_rate opp)) st))
      as (-> & -> & -> & es & -> & Hf & Ho). simpl.
    repeat split. eexists (_ :: es). rewrite <- app_assoc. by simpl.
Qed.

Lemma cycle_invariant response st :
  loop_invariant st →
  loop_invariant (cycle py_float sort_order py_str exchange now response st) ∧
  min_funding_rate (cycle py_float sort_order py_str exchange now response st) = min_funding_rate st.
Proof.
  intros Hinv. unfold cycle.
  destruct (get_funding_opportunities_invariant response st Hinv) as (Hinv1 & Hmin1 & Hrefs).
  destruct (get_funding_opportunities py_float sort_order response st) as [opportunities st1].
  simpl in *. destruct opportunities as [|opp opportunities].
  - split; [|done].
    apply (loop_invariant_quiet st1 _ [Log INFO MsgNoOpportunities; Sleep 60]); try done;
      [apply Hinv1|]. simpl. by rewrite <- app_assoc.
  - set (opps := opp :: opportunities) in *.
    destruct (log_entries_quiet (take 5 opps) (log INFO MsgTop st1))
      as (Hmk & Hap & Hmin & es & Htrace & Hf & Ho).
    set (st2 := foldl _ _ _) in *.
    assert (loop_invariant st2) as Hinv2.
    { apply (loop_invariant_quiet st1 _ (Log INFO MsgTop :: es)); try done.
      - rewrite Hmk. apply Hinv1.
      - rewrite Htrace. simpl. by rewrite <- app_assoc. }
    destruct (consider_all_invariant opps st2 Hinv2 Hrefs) as [Hinv3 Hmin3].
    split.
    + apply (loop_invariant_quiet _ _ [Sleep 60] Hinv3); try done. apply Hinv3.
    + etransitivity; [exact Hmin3|]. etransitivity; [exact Hmin|]. exact Hmin1.
Qed.

Lemma main_loop_invariant feed : ∀ st,
  loop_invariant st →
  loop_invariant (main_loop py_float sort_order py_str exchange now feed st) ∧
  min_funding_rate (main_loop py_float sort_order py_str exchange now feed st) = min_funding_rate st.
Proof.
  induction feed as [|response feed IH]; intros st Hinv; simpl; [done|].
  destruct (cycle_invariant response st Hinv) as [Hinv' Hmin].
  destruct (IH _ Hinv') as [Hinv'' Hmin']. split; [done|]. by rewrite Hmin'.
Qed.
(** C4. In every state the loop reaches from a new bot, every call of
    [execute_funding_arb] recorded in the trace was for a symbol for which
    no hedge had been opened before the call; the ledger holds exactly the
    symbols a hedge was opened for, and no hedge was opened twice for a
    symbol. In any state, the body of the loop does nothing for an
    opportunity whose symbol is in the ledger. *)
Theorem one_hedge_per_symbol min_rate usd slippage perps spots feed :
  let st :=
    main_loop py_float sort_order py_str exchange now feed (new_bot min_rate usd slippage perps spots) in
  (∀ t1 symbol rate t2,
     trace st = t1 ++ Log INFO (MsgFound symbol rate) :: t2 → symbol ∉ opened t1) ∧
  dom (active_positions st) = list_to_set (opened (trace st)) ∧
  NoDup (opened (trace st)) ∧
  (∀ st' opp,
     is_Some (active_positions st' !! Opp.symbol opp) →
     consider py_str exchange now opp st' = st').
Proof.
  simpl.
  destruct (main_loop_invariant feed _ (new_bot_invariant min_rate usd slippage perps spots))
    as [[_ Hled Honce Hfresh] _].
  split; [exact Hfresh|]. split; [done|]. split; [done|].
  intros st' opp [position Hheld]. unfold consider. rewrite Hheld.
  by destruct (_ <=? _)%float.
Qed.

(** What the body of the loop does for one opportunity: it calls
    [execute_funding_arb] exactly when the rate reaches the threshold and the
    symbol is not in the ledger, and the ledger gains at most that symbol. *)
Lemma consider_calls opp st :
  catalog_wf (markets st) → Opp.market opp = Opp.symbol opp →
  let st' := consider py_str exchange now opp st in
  let wanted :=
    (min_funding_rate st <=? abs (Opp.funding_rate opp))%float = true ∧
    active_positions st !! Opp.symbol opp = None in
  markets st' = markets st ∧ min_funding_rate st' = min_funding_rate st ∧
  (∀ symbol, is_Some (active_positions st !! symbol) → is_Some (active_positions st' !! symbol)) ∧
  ∃ calls,
    found (trace st') = found (trace st) ++ calls ∧
    (wanted → calls = [Opp.symbol opp]) ∧ (¬ wanted → calls = []) ∧
    (∀ symbol, is_Some (active_positions st' !! symbol) →
               is_Some (active_positions st !! symbol) ∨ symbol ∈ calls).
Proof.
  intros Hcat Href. simpl. unfold consider.
  destruct (min_funding_rate st <=? abs (Opp.funding_rate opp))%float; cycle 1.
  { do 2 (split; [done|]). split; [auto|]. exists []. rewrite app_nil_r.
    split; [done|]. split; [by intros []|]. split; [done|]. by left. }
  destruct (active_positions st !! Opp.symbol opp) eqn:Hheld.
  { do 2 (split; [done|]). split; [auto|]. exists []. rewrite app_nil_r.
    split; [done|]. split; [by intros []|]. split; [done|]. by left. }
  set (st1 := log INFO (MsgFound (Opp.symbol opp) (Opp.funding_rate opp)) st).
  pose proof (execute_funding_arb_effect py_str exchange now (Opp.market opp)
                (Opp.funding_rate opp) st1) as (Hmk & Hmin & es & Htrace & Hquiet & Hres).
  simpl in Hmk, Hmin, Htrace, Hres.
  destruct (execute_funding_arb py_str exchange now (Opp.market opp) (Opp.funding_rate opp) st1)
    as [success st2]; simpl in *.
  destruct success; simpl.
  - destruct Hres as (m & position & Hm & _ & Hap).
    apply Hcat in Hm. rewrite Href in Hm. rewrite Hm in Hap.
    do 2 (split; [done|]). split.
    { intros symbol. rewrite Hap, lookup_insert_is_Some. intros ?.
      destruct (decide (Opp.symbol opp = symbol)); by eauto. }
    exists [Opp.symbol opp]. split.
    { rewrite Htrace, !found_app, Hquiet. simpl. by rewrite !app_nil_r. }
    split; [done|]. split; [by intros []|].
    intros symbol. rewrite Hap, lookup_insert_is_Some.
    intros [<-|[_ ?]]; [right; by left|by left].
  - destruct Hres as [_ Hap].
    do 2 (split; [done|]). split; [by rewrite Hap|].
    exists [Opp.symbol opp]. split.
    { rewrite Htrace, !found_app, Hquiet. simpl. by rewrite !app_nil_r. }
    split; [done|]. split; [by intros []|].
    intros symbol. rewrite Hap. by left.
Qed.

(** The loop over the opportunities calls [execute_funding_arb] for every
    opportunity that reaches the threshold and whose symbol was not in the
    ledger when the loop began, and for no other symbol. *)
Lemma consider_all_calls opportunities : ∀ st,
  catalog_wf (markets st) → Forall (λ o, Opp.market o = Opp.symbol o) opportunities →
  let st' := consider_all py_str exchange now opportunities st in
  ∃ calls,
    found (trace st') = found (trace st) ++ calls ∧
    (∀ opp, opp ∈ opportunities →
       (min_funding_rate st <=? abs (Opp.funding_rate opp))%float = true →
       active_positions st !! Opp.symbol opp = None →
       Opp.symbol opp ∈ calls) ∧
    (∀ symbol, symbol ∈ calls →
       active_positions st !! symbol = None ∧
       ∃ opp, opp ∈ opportunities ∧ Opp.symbol opp = symbol ∧
              (min_funding_rate st <=? abs (Opp.funding_rate opp))%float = true).
Proof.
  induction opportunities as [|opp opportunities IH]; intros st Hcat Hrefs; simpl.
  { exists []. rewrite app_nil_r. split; [done|]. split; [by intros ? ?%elem_of_nil|].
    by intros ? ?%elem_of_nil. }
  apply Forall_cons in Hrefs as [Href Hrefs].
  destruct (consider_calls opp st Hcat Href)
    as (Hmk & Hmin & Hkept & calls1 & Hfound1 & Hcalled & Hskipped & Hgained).
  simpl in Hmk, Hmin, Hkept, Hfound1, Hgained.
  set (st1 := consider py_str exchange now opp st) in *.
  destruct (IH st1) as (calls2 & Hfound2 & Hall & Honly); [by rewrite Hmk|done|].
  simpl in Hfound2. rewrite Hmin in Hall, Honly.
  exists (calls1 ++ calls2). split; [|split].
  - change (foldl _ st1 opportunities) with (consider_all py_str exchange now opportunities st1).
    by rewrite Hfound2, Hfound1, app_assoc.
  - intros o [->|Hin]%elem_of_cons Hrate Hfree; apply elem_of_app.
    + left. rewrite Hcalled by done. by left.
    + destruct (active_positions st1 !! Opp.symbol o) as [p|] eqn:Hheld.
      * destruct (Hgained (Opp.symbol o)) as [[? Hold]|?]; [by eauto|congruence|by left].
      * right. by apply Hall.
  - intros symbol [Hin|Hin]%elem_of_app.
    + destruct (decide ((min_funding_rate st <=? abs (Opp.funding_rate opp))%float = true ∧
                        active_positions st !! Opp.symbol opp = None)) as [[Hrate Hfree]|Hnot].
      * rewrite Hcalled in Hin by done. apply list_elem_of_singleton in Hin as ->.
        split; [done|]. exists opp. split; [by left|done].
      * rewrite Hskipped in Hin by done. by apply elem_of_nil in Hin.
    + destruct (Honly symbol Hin) as (Hfree & o & Ho & Hsym & Hrate).
      split.
      * destruct (active_positions st !! symbol) as [p|] eqn:Hheld; [|done].
        destruct (Hkept symbol) as [? Hnow]; [by eauto|congruence].
      * exists o. split; [by right|done].
Qed.

Lemma get_funding_opportunities_quiet response st :
  let r := get_funding_opportunities py_float sort_order response st in
  active_positions r.2 = active_positions st ∧ found (trace r.2) = found (trace st).
Proof.
  simpl. unfold get_funding_opportunities. destruct response as [contexts|]; simpl.
  - destruct (scan_contexts _ _ _ _ _ _) as [[opportunities|] mk]; simpl; [done|].
    rewrite found_app. simpl. by rewrite app_nil_r.
  - rewrite <- app_assoc, found_app. simpl. by rewrite app_nil_r.
Qed.

(** One iteration of the loop calls [execute_funding_arb] for every
    opportunity of the ranking that reaches the threshold and whose symbol is
    not in the ledger, and for no other symbol. *)
Lemma cycle_calls response st :
  loop_invariant st →
  let ranked := (get_funding_opportunities py_float sort_order response st).1 in
  ∃ calls,
    found (trace (cycle py_float sort_order py_str exchange now response st)) =
      found (trace st) ++ calls ∧
    (∀ opp, opp ∈ ranked →
       (min_funding_rate st <=? abs (Opp.funding_rate opp))%float = true →
       active_positions st !! Opp.symbol opp = None →
       Opp.symbol opp ∈ calls) ∧
    (∀ symbol, symbol ∈ calls →
       active_positions st !! symbol = None ∧
       ∃ opp, opp ∈ ranked ∧ Opp.symbol opp = symbol ∧
              (min_funding_rate st <=? abs (Opp.funding_rate opp))%float = true).
Proof.
  intros Hinv. simpl. unfold cycle.
  destruct (get_funding_opportunities_invariant response st Hinv) as (Hinv1 & Hmin1 & Hrefs).
  destruct (get_funding_opportunities_quiet response st) as (Hap1 & Hfound1).
  destruct (get_funding_opportunities py_float sort_order response st) as [opportunities st1].
  simpl in *. destruct opportunities as [|opp opportunities].
  - exists []. rewrite app_nil_r. split; [|split].
    + simpl. rewrite <- app_assoc, found_app. simpl. by rewrite app_nil_r.
    + by intros ? ?%elem_of_nil.
    + by intros ? ?%elem_of_nil.
  - set (opps := opp :: opportunities) in *.
    destruct (log_entries_quiet (take 5 opps) (log INFO MsgTop st1))
      as (Hmk & Hap & Hmin & es & Htrace & Hf & Ho).
    set (st2 := foldl _ _ _) in *. simpl in Hmk, Hap, Hmin, Htrace.
    destruct (consider_all_calls opps st2) as (calls & Hfound & Hall & Honly);
      [rewrite Hmk; apply Hinv1|done|].
    cbv zeta in Hfound. rewrite Hmin, Hmin1, Hap, Hap1 in *.
    exists calls. split; [|done].
    unfold emit. cbn [trace]. rewrite found_app, Hfound, Htrace, <- app_assoc, !found_app, Hf.
    simpl. by rewrite !app_nil_r, Hfound1.
Qed.

(** C5. The bot of [main] keeps the threshold 0.05 in every state it
    reaches. In every such state, one iteration of the loop calls
    [execute_funding_arb] for every opportunity of the ranking whose
    absolute rate is at least 0.05 and whose symbol is not in the ledger, and
    for no other symbol; the body of the loop makes that call with the
    market and the rate of the opportunity, and the loop runs its body on
    every opportunity in turn. A raw rate of 0.000002 per period is
    annualized to 0.0729..., which is at least 0.05 and far below 5: the
    default bot orders the hedge for it. *)
Theorem default_threshold_is_in_percent_units :
  (∀ feed perps spots,
     min_funding_rate (main_loop py_float sort_order py_str exchange now feed (default_bot perps spots))
       = 0.05%float) ∧
  (∀ feed perps spots response,
     let st := main_loop py_float sort_order py_str exchange now feed (default_bot perps spots) in
     let ranked := (get_funding_opportunities py_float sort_order response st).1 in
     ∃ calls,
       found (trace (cycle py_float sort_order py_str exchange now response st)) =
         found (trace st) ++ calls ∧
       (∀ opp, opp ∈ ranked →
          (0.05 <=? abs (Opp.funding_rate opp))%float = true →
          active_positions st !! Opp.symbol opp = None →
          Opp.symbol opp ∈ calls) ∧
       (∀ symbol, symbol ∈ calls →
          active_positions st !! symbol = None ∧
          ∃ opp, opp ∈ ranked ∧ Opp.symbol opp = symbol ∧
                 (0.05 <=? abs (Opp.funding_rate opp))%float = true)) ∧
  (∀ st opp,
     min_funding_rate st = 0.05%float →
     (0.05 <=? abs (Opp.funding_rate opp))%float = true →
     active_positions st !! Opp.symbol opp = None →
     let st1 := log INFO (MsgFound (Opp.symbol opp) (Opp.funding_rate opp)) st in
     let r :=
       execute_funding_arb py_str exchange now (Opp.market opp) (Opp.funding_rate opp) st1 in
     consider py_str exchange now opp st =
       (if r.1 then log INFO (MsgExecuted (Opp.symbol opp)) r.2
        else log ERROR (MsgNotExecuted (Opp.symbol opp)) r.2) ∧
     found (trace (consider py_str exchange now opp st)) = found (trace st) ++ [Opp.symbol opp]) ∧
  (∀ before opp after st,
     consider_all py_str exchange now (before ++ opp :: after) st =
     consider_all py_str exchange now after
       (consider py_str exchange now opp (consider_all py_str exchange now before st))) ∧
  ((0.000002 * 365 * 100)%float = 0.072999999999999995%float ∧
   (0.05 <=? abs (0.000002 * 365 * 100))%float = true ∧
   (abs (0.000002 * 365 * 100) <? 5)%float = true) ∧
  posts (trace (cycle scenario_float scenario_order scenario_str exchange_ok scenario_now
                  (btc_snapshot "0.000002") btc_bot)) =
    [Order.make 10005 true "50049.99999999999" "0.020" false "Gtc";
     Order.make 0 false "49950.0" "0.020" false "Gtc"].
Proof.
  split; [|split; [|split; [|split; [|split]]]].
  - intros feed perps spots.
    destruct (main_loop_invariant feed _ (new_bot_invariant 0.05 1000 0.001 perps spots))
      as [_ Hmin]. exact Hmin.
  - intros feed perps spots response.
    destruct (main_loop_invariant feed _ (new_bot_invariant 0.05 1000 0.001 perps spots))
      as [Hinv Hmin].
    pose proof (cycle_calls response _ Hinv) as Hcalls. cbv zeta in Hcalls.
    unfold default_bot. rewrite Hmin in Hcalls. exact Hcalls.
  - intros st opp Hmin Hrate Hfree. simpl. unfold consider. rewrite Hmin, Hrate, Hfree.
    pose proof (execute_funding_arb_effect py_str exchange now (Opp.market opp)
                  (Opp.funding_rate opp)
                  (log INFO (MsgFound (Opp.symbol opp) (Opp.funding_rate opp)) st))
      as (_ & _ & es & Htrace & Hquiet & _). simpl in Htrace.
    destruct (execute_funding_arb _ _ _ _ _ _) as [[] st2]; simpl in *.
    all: split; [done|].
    all: rewrite Htrace, !found_app, Hquiet; simpl; by rewrite !app_nil_r.
  - intros before opp after st. unfold consider_all. by rewrite foldl_app.
  - by vm_compute.
  - by vm_compute.
Qed.
End Control.

(** * Further properties *)

(** ** Market Catalog: identifiers *)

Lemma initialize_markets_lookup perps spots symbol m :
  initialize_markets perps spots !! symbol = Some m →
  ∃ i perp spot,
    perps !! i = Some perp ∧ Perp.name perp = symbol ∧ spot ∈ spots ∧
    m = Market.new symbol (Z.of_nat i) (10000 + Spot.index spot) (Perp.szDecimals perp).
Proof.
  unfold initialize_markets. rewrite map_markets_lookup, lookup_empty.
  destruct (find_spot symbol spots) as [spot|] eqn:Hspot; [|done].
  destruct (last_named symbol perps) as [[i perp]|] eqn:Hperp; [|done].
  intros [= <-]. apply find_spot_Some in Hspot as [Hin _].
  apply last_named_Some in Hperp as (Hi & Hname & _). by exists i, perp, spot.
Qed.

(** X1. The perpetual identifier of a market is an index of the perpetual
    catalog, and two markets with the same perpetual identifier are the
    same market. *)
Theorem perp_ids_identify_markets perps spots symbol1 symbol2 m1 m2 :
  initialize_markets perps spots !! symbol1 = Some m1 →
  initialize_markets perps spots !! symbol2 = Some m2 →
  0 ≤ Market.perp_asset_id m1 < Z.of_nat (length perps) ∧
  (Market.perp_asset_id m1 = Market.perp_asset_id m2 → symbol1 = symbol2).
Proof.
  intros (i1 & perp1 & spot1 & Hi1 & Hname1 & _ & ->)%initialize_markets_lookup
         (i2 & perp2 & spot2 & Hi2 & Hname2 & _ & ->)%initialize_markets_lookup.
  simpl. split.
  - apply lookup_lt_Some in Hi1. lia.
  - intros Heq. assert (i1 = i2) as -> by lia. congruence.
Qed.

(** X2. With at most 10000 perpetuals and no negative spot index, every
    perpetual identifier is below 10000 and every spot identifier is at
    least 10000: no identifier stands for both a perpetual and a spot
    instrument. *)
Theorem spot_ids_apart_from_perp_ids perps spots symbol1 symbol2 m1 m2 :
  Z.of_nat (length perps) ≤ 10000 →
  Forall (λ spot, 0 ≤ Spot.index spot) spots →
  initialize_markets perps spots !! symbol1 = Some m1 →
  initialize_markets perps spots !! symbol2 = Some m2 →
  Market.perp_asset_id m1 < 10000 ≤ Market.spot_asset_id m2.
Proof.
  intros Hlen Hspots
         (i1 & perp1 & spot1 & Hi1 & _ & _ & ->)%initialize_markets_lookup
         (i2 & perp2 & spot2 & _ & _ & Hin & ->)%initialize_markets_lookup.
  simpl. rewrite Forall_forall in Hspots. apply Hspots in Hin.
  apply lookup_lt_Some in Hi1. lia.
Qed.

(** ** Hedge Execution Engine: what a call does and never does *)

Section HedgeEffects.
Context (py_str : float → string)
        (exchange : list Order.t → Order.t → option Json) (now : list Event → Z).

Ltac run_hedge :=
  unfold execute_funding_arb, execute_funding_arb_body, _emergency_close, _place_order,
    hedge_amount, new_posts, spot_leg, perp_leg, unwind_leg, log.

Ltac trace_norm :=
  simpl; rewrite ?posts_app; simpl; rewrite ?app_nil_r, <- ?app_assoc; simpl.

Ltac hedge_cases :=
  repeat first
    [ progress trace_norm
    | match goal with
      | |- context [status_ok ?s] => destruct (status_ok s) eqn:?
      | |- context [markets ?st !! ?k] => destruct (markets st !! k) eqn:?
      | |- context [(?x =? ?y)%float] => destruct (x =? y)%float eqn:?
      | |- context [format_fixed ?x ?d] => destruct (format_fixed x d) eqn:?
      | |- context [exchange ?h ?o] => destruct (exchange h o) as [[| [] |?]|] eqn:?
      end ].

Ltac new_posts_simpl := rewrite ?drop_app_length, ?drop_all.

Ltac members H :=
  repeat (apply elem_of_cons in H as [->|H]); try (by apply elem_of_nil in H).

(** X3. A market that was never refreshed has the mark price 0.0 of the
    constructor: a hedge of it on a new bot raises on the division, which
    costs one error record, no order and no position. *)
Theorem unrefreshed_market_is_not_hedged min_rate usd slippage perps spots market funding_rate :
  let st := new_bot min_rate usd slippage perps spots in
  let r := execute_funding_arb py_str exchange now market funding_rate st in
  r.1 = false ∧
  trace r.2 = trace st ++ [Log ERROR MsgExecuteError] ∧
  active_positions r.2 = ∅.
Proof.
  simpl. unfold execute_funding_arb, execute_funding_arb_body. simpl.
  destruct (initialize_markets perps spots !! market) as [m|] eqn:Hm; [|done].
  apply initialize_markets_lookup in Hm as (i & perp & spot & _ & _ & _ & ->). by simpl.
Qed.

(** X7. A successful call stores, under the symbol of the market, the rate
    it was given, the mark price of the market, the reference to the market
    and as amount the quotient of the notional by the mark price, not
    rounded to the size precision; every other entry of the ledger is left
    as it was. *)
Theorem recorded_position_fields market funding_rate st :
  let r := execute_funding_arb py_str exchange now market funding_rate st in
  r.1 = true →
  ∃ m p,
    markets st !! market = Some m ∧
    active_positions r.2 !! Market.symbol m = Some p ∧
    Position.funding_rate p = funding_rate ∧
    Position.mark_price p = Market.mark_price m ∧
    Position.amount p = (position_size_usd st / Market.mark_price m)%float ∧
    Position.market p = market ∧
    ∀ key, key ≠ Market.symbol m → active_positions r.2 !! key = active_positions st !! key.
Proof.
  run_hedge. hedge_cases; try done.
  intros _. eexists _, _. split; [done|]. rewrite lookup_insert_eq.
  split; [done|]. do 4 (split; [done|]).
  intros key Hkey. by rewrite lookup_insert_ne.
Qed.

(** X8. A call never changes the catalog or the configuration. It submits
    at most three orders, none of them reduce-only, all good till cancelled
    and all for the same size. *)
Theorem hedge_orders_bounded market funding_rate st :
  let r := execute_funding_arb py_str exchange now market funding_rate st in
  markets r.2 = markets st ∧
  min_funding_rate r.2 = min_funding_rate st ∧
  position_size_usd r.2 = position_size_usd st ∧
  max_slippage r.2 = max_slippage st ∧
  posts (trace r.2) = posts (trace st) ++ new_posts st r.2 ∧
  (length (new_posts st r.2) ≤ 3)%nat ∧
  (∀ o, o ∈ new_posts st r.2 → Order.r o = false ∧ Order.tif o = "Gtc"%string) ∧
  (∀ o1 o2, o1 ∈ new_posts st r.2 → o2 ∈ new_posts st r.2 → Order.s o1 = Order.s o2).
Proof.
  run_hedge. hedge_cases; new_posts_simpl; rewrite ?app_nil_r.
  all: do 5 (split; [done|]).
  all: split; [simpl; lia|].
  all: split; [intros o Ho; by members Ho|].
  all: intros o1 o2 H1 H2; members H1; by members H2.
Qed.

(** X9. [_emergency_close] submits one order, for the same asset and size,
    on the other side and at price "0". Whatever the answer, it returns; what
    it returns is true exactly when the order was accepted. *)
Theorem emergency_close_effect asset_id size is_buy st :
  let r := _emergency_close exchange asset_id size is_buy st in
  let order := Order.make asset_id (negb is_buy) "0" size false "Gtc" in
  r.1 = accepted (exchange (posts (trace st)) order) ∧
  posts (trace r.2) = posts (trace st) ++ [order] ∧
  markets r.2 = markets st ∧ active_positions r.2 = active_positions st.
Proof.
  unfold _emergency_close, _place_order, log. simpl.
  destruct (exchange _ _) as [[| [] |status]|]; simpl; rewrite ?posts_app; simpl;
    by rewrite ?app_nil_r.
Qed.

(** The records of a call hold no sleep, and its orders are for the spot or
    the perpetual instrument of the market. *)
Lemma execute_funding_arb_trace market funding_rate st :
  let r := execute_funding_arb py_str exchange now market funding_rate st in
  ∃ es, trace r.2 = trace st ++ es ∧ sleeps es = [] ∧
    ∀ o, o ∈ posts es →
      ∃ m, markets st !! market = Some m ∧
           (Order.a o = Market.spot_asset_id m ∨ Order.a o = Market.perp_asset_id m).
Proof.
  run_hedge. hedge_cases.
  all: try (exists []; rewrite app_nil_r; do 2 (split; [done|]); by intros o ?%elem_of_nil).
  all: eexists; (split; [reflexivity|]); (split; [done|]); simpl.
  all: intros o Ho; members Ho; eauto.
Qed.
End HedgeEffects.

(** ** Market Data Feed: what a refresh keeps, and when it fails *)

Lemma same_instrument_refl m : same_instrument m m.
Proof. by repeat split. Qed.

Lemma same_instrument_trans m1 m2 m3 :
  same_instrument m1 m2 → same_instrument m2 m3 → same_instrument m1 m3.
Proof. unfold same_instrument. intros (? & ? & ? & ?) (? & ? & ? & ?). repeat split; congruence. Qed.

Lemma sleeps_app (t1 t2 : list Event) : sleeps (t1 ++ t2) = sleeps t1 ++ sleeps t2.
Proof. apply omap_app. Qed.

Section FeedEffects.
Context (py_float : string → option float) (sort_order : list float → list nat).

Lemma scan_contexts_same_instrument names ctxs : ∀ idx mk acc symbol m,
  mk !! symbol = Some m →
  ∃ m', (scan_contexts py_float idx ctxs names mk acc).2 !! symbol = Some m' ∧
        same_instrument m m'.
Proof.
  induction ctxs as [|ctx ctxs IH]; intros idx mk acc symbol m Hm; simpl.
  - exists m. split; [done|apply same_instrument_refl].
  - destruct (names !! idx) as [symbol0|]; [|by exists m; split; [|apply same_instrument_refl]].
    destruct (mk !! symbol0) as [m0|] eqn:Hm0; [|by apply IH].
    destruct (py_float (Ctx.funding ctx)) as [r|];
      [|by exists m; split; [|apply same_instrument_refl]].
    destruct (decide (symbol0 = symbol)) as [->|Hne].
    + rewrite Hm in Hm0. injection Hm0 as <-.
      destruct (py_float (Ctx.markPx ctx)) as [px|]; simpl.
      * rewrite insert_insert_eq.
        destruct (IH (S idx) (<[symbol := Market.set_mark_price px
                                  (Market.set_funding_rate (r * 365 * 100)%float m)]> mk)
                    (acc ++ [Opp.make symbol (r * 365 * 100)%float px symbol]) symbol _
                    (lookup_insert_eq _ _ _)) as (m' & Hm' & Hsame).
        exists m'. split; [done|].
        eapply same_instrument_trans; [|exact Hsame]. by repeat split.
      * rewrite lookup_insert_eq. eexists. split; [done|]. by repeat split.
    + destruct (py_float (Ctx.markPx ctx)) as [px|]; simpl.
      * rewrite insert_insert_eq. apply IH. by rewrite lookup_insert_ne.
      * rewrite lookup_insert_ne by done. exists m. split; [done|apply same_instrument_refl].
Qed.

(** X4. Whether it succeeds or fails, [get_funding_opportunities] leaves
    the ledger, the configuration and the orders as they were and keeps
    every market of the catalog under its key, with the same symbol,
    identifiers and size precision: it changes quotes only. *)
Theorem fetch_changes_quotes_only response st :
  let r := get_funding_opportunities py_float sort_order response st in
  active_positions r.2 = active_positions st ∧
  min_funding_rate r.2 = min_funding_rate st ∧
  position_size_usd r.2 = position_size_usd st ∧
  max_slippage r.2 = max_slippage st ∧
  posts (trace r.2) = posts (trace st) ∧
  dom (markets r.2) = dom (markets st) ∧
  ∀ symbol m, markets st !! symbol = Some m →
    ∃ m', markets r.2 !! symbol = Some m' ∧ same_instrument m m'.
Proof.
  simpl. unfold get_funding_opportunities. destruct response as [contexts|]; simpl.
  - pose proof (scan_contexts_dom py_float (universe contexts) (asset_ctxs contexts) 0
                  (markets st) []) as Hdom.
    pose proof (scan_contexts_same_instrument (universe contexts) (asset_ctxs contexts) 0
                  (markets st) []) as Hsame.
    destruct (scan_contexts _ _ _ _ _ _) as [[opportunities|] mk]; simpl in *.
    + by do 6 (split; [done|]).
    + do 4 (split; [done|]). split; [|done]. rewrite posts_app. simpl. by rewrite app_nil_r.
  - do 4 (split; [done|]). split.
    + rewrite !posts_app. simpl. by rewrite !app_nil_r.
    + split; [done|]. intros symbol m Hm. exists m. split; [done|apply same_instrument_refl].
Qed.

Lemma scan_contexts_short_names names ctxs : ∀ idx mk acc,
  (idx ≤ length names < idx + length ctxs)%nat →
  (scan_contexts py_float idx ctxs names mk acc).1 = None.
Proof.
  induction ctxs as [|ctx ctxs IH]; intros idx mk acc Hlen; simpl in *; [lia|].
  destruct (names !! idx) as [symbol|] eqn:Hname; [|done].
  apply lookup_lt_Some in Hname.
  destruct (mk !! symbol); [|apply IH; lia].
  destruct (py_float (Ctx.funding ctx)); [|done].
  destruct (py_float (Ctx.markPx ctx)); [|done]. apply IH. lia.
Qed.

(** X5. A snapshot with more contexts than names in its universe yields no
    opportunity at all, whatever it quotes: the loop raises at the first
    context without a name, if not before. *)
Theorem short_universe_fails_fetch contexts st :
  (length (universe contexts) < length (asset_ctxs contexts))%nat →
  (get_funding_opportunities py_float sort_order (Some contexts) st).1 = [] ∧
  fetch_fails py_float (Some contexts) st.
Proof.
  intros Hlen. unfold get_funding_opportunities, fetch_fails.
  pose proof (scan_contexts_short_names (universe contexts) (asset_ctxs contexts) 0
                (markets st) [] ltac:(lia)) as Hnone.
  by destruct (scan_contexts _ _ _ _ _ _) as [[opportunities|] mk]; simpl in *.
Qed.

(** X6. A refresh that fails is not rolled back. When the loop has
    completed on the first contexts of a snapshot and the next one quotes,
    for a symbol of the catalog, a funding rate that is not a number in
    text, the call returns no opportunity and leaves the catalog as the
    first contexts made it. *)
Theorem failed_refresh_keeps_earlier_quotes names ctxs1 ctx rest st opportunities mk1 symbol m :
  scan_contexts py_float 0 ctxs1 names (markets st) [] = (Some opportunities, mk1) →
  names !! length ctxs1 = Some symbol →
  mk1 !! symbol = Some m →
  py_float (Ctx.funding ctx) = None →
  let r :=
    get_funding_opportunities py_float sort_order
      (Some {| universe := names; asset_ctxs := ctxs1 ++ ctx :: rest |}) st in
  r.1 = [] ∧ markets r.2 = mk1.
Proof.
  intros Hscan Hname Hm Hfunding. simpl. unfold get_funding_opportunities. simpl.
  rewrite scan_contexts_app, Hscan. simpl. by rewrite Hname, Hm, Hfunding.
Qed.
End FeedEffects.

(** ** Control Loop: pacing, the ledger and the catalog over a run *)


Lemma same_catalog_refl mk : same_catalog mk mk.
Proof. split; [done|]. intros symbol m Hm. exists m. split; [done|apply same_instrument_refl]. Qed.

Lemma same_catalog_trans mk1 mk2 mk3 :
  same_catalog mk1 mk2 → same_catalog mk2 mk3 → same_catalog mk1 mk3.
Proof.
  intros [Hdom12 H12] [Hdom23 H23]. split; [congruence|].
  intros symbol m1 (m2 & Hm2 & Hsame12)%H12. apply H23 in Hm2 as (m3 & Hm3 & Hsame23).
  exists m3. split; [done|]. by eapply same_instrument_trans.
Qed.

(** A market of the current catalog has the identifiers of the market of
    the first catalog under the same key. *)
Lemma same_catalog_back mk0 mk symbol m :
  same_catalog mk0 mk → mk !! symbol = Some m →
  ∃ m0, mk0 !! symbol = Some m0 ∧ same_instrument m0 m.
Proof.
  intros [Hdom Hall] Hm.
  assert (is_Some (mk0 !! symbol)) as [m0 Hm0].
  { apply elem_of_dom. rewrite <- Hdom. apply elem_of_dom. eauto. }
  destruct (Hall symbol m0 Hm0) as (m' & Hm' & Hsame). exists m0. split; [done|]. congruence.
Qed.

Lemma is_number_false_leb (x y : float) :
  is_number x = false ∨ is_number y = false → (x <=? y)%float = false.
Proof.
  unfold is_number. rewrite leb_spec.
  destruct (Prim2SF x) as [| | |], (Prim2SF y) as [| | |]; intros [?|?]; done.
Qed.

Section ControlEffects.
Context (py_float : string → option float) (sort_order : list float → list nat)
        (py_str : float → string)
        (exchange : list Order.t → Order.t → option Json) (now : list Event → Z).

(** X11. An opportunity whose rate is NaN is never executed, and with a
    threshold that is NaN nothing is: the loop over such opportunities
    leaves the bot as it was, without a record. *)
Theorem nan_is_never_traded opportunities st :
  is_number (min_funding_rate st) = false ∨
  Forall (λ opp, is_number (Opp.funding_rate opp) = false) opportunities →
  consider_all py_str exchange now opportunities st = st.
Proof.
  intros Hnan. unfold consider_all.
  induction opportunities as [|opp opportunities IH]; simpl; [done|].
  assert ((min_funding_rate st <=? abs (Opp.funding_rate opp))%float = false) as Hle.
  { apply is_number_false_leb. rewrite is_number_abs.
    destruct Hnan as [?|[? _]%Forall_cons]; eauto. }
  unfold consider at 2. rewrite Hle. apply IH.
  destruct Hnan as [?|[_ ?]%Forall_cons]; eauto.
Qed.

(** What the body of the loop does to the trace, the catalog and the
    ledger. *)
Lemma consider_effect opp st :
  let st' := consider py_str exchange now opp st in
  markets st' = markets st ∧
  (∃ es, trace st' = trace st ++ es ∧ sleeps es = [] ∧
     ∀ o, o ∈ posts es →
       ∃ m, markets st !! Opp.market opp = Some m ∧
            (Order.a o = Market.spot_asset_id m ∨ Order.a o = Market.perp_asset_id m)) ∧
  (catalog_wf (markets st) → dom (active_positions st') ⊆ dom (active_positions st) ∪ dom (markets st)).
Proof.
  simpl. unfold consider.
  destruct (_ <=? _)%float;
    [|split; [done|]; split; [|set_solver];
      exists []; rewrite app_nil_r; do 2 (split; [done|]); by intros o ?%elem_of_nil].
  destruct (active_positions st !! Opp.symbol opp);
    [split; [done|]; split; [|set_solver];
      exists []; rewrite app_nil_r; do 2 (split; [done|]); by intros o ?%elem_of_nil|].
  set (st1 := log INFO (MsgFound (Opp.symbol opp) (Opp.funding_rate opp)) st).
  pose proof (execute_funding_arb_effect py_str exchange now (Opp.market opp)
                (Opp.funding_rate opp) st1) as (Hmk & _ & es0 & _ & _ & Hres).
  pose proof (execute_funding_arb_trace py_str exchange now (Opp.market opp)
                (Opp.funding_rate opp) st1) as (es & Htrace & Hsleeps & Horders).
  simpl in Hmk, Hres, Htrace, Horders.
  destruct (execute_funding_arb py_str exchange now (Opp.market opp) (Opp.funding_rate opp) st1)
    as [success st2]; simpl in *.
  assert (markets (if success then log INFO (MsgExecuted (Opp.symbol opp)) st2
                   else log ERROR (MsgNotExecuted (Opp.symbol opp)) st2) = markets st) as Hmk'
    by by destruct success.
  split; [done|]. split.
  - exists (Log INFO (MsgFound (Opp.symbol opp) (Opp.funding_rate opp)) :: es ++
            [Log (if success then INFO else ERROR)
                 (if success then MsgExecuted (Opp.symbol opp)
                  else MsgNotExecuted (Opp.symbol opp))]).
    split; [destruct success; simpl; rewrite Htrace, <- !app_assoc; done|].
    split.
    + simpl. rewrite sleeps_app, Hsleeps. by destruct success.
    + intros o. simpl. rewrite posts_app. destruct success; simpl; rewrite app_nil_r; apply Horders.
  - intros Hwf. destruct success; simpl.
    + destruct Hres as (m & position & Hm & _ & ->). rewrite dom_insert_L.
      apply Hwf in Hm as Hsym. rewrite Hsym.
      assert (Opp.market opp ∈ dom (markets st)) by (apply elem_of_dom; eauto). set_solver.
    + destruct Hres as [_ ->]. set_solver.
Qed.

Lemma orders_within_nil mk : orders_within mk [].
Proof. by intros o ?%elem_of_nil. Qed.

Lemma orders_within_app mk t1 t2 :
  orders_within mk t1 → orders_within mk t2 → orders_within mk (t1 ++ t2).
Proof.
  intros H1 H2 o. rewrite posts_app. intros [?|?]%elem_of_app; eauto.
Qed.

Lemma orders_within_silent mk t : posts t = [] → orders_within mk t.
Proof. intros Ht o. rewrite Ht. by intros ?%elem_of_nil. Qed.

Lemma orders_within_same_catalog mk0 mk t :
  same_catalog mk0 mk → orders_within mk0 t → orders_within mk t.
Proof.
  intros [_ Hall] Ht o (symbol & m & Hm & Hid)%Ht.
  destruct (Hall symbol m Hm) as (m' & Hm' & _ & Hperp & Hspot & _).
  exists symbol, m'. split; [done|]. by rewrite Hperp, Hspot.
Qed.

Lemma orders_within_back mk0 mk t :
  same_catalog mk0 mk → orders_within mk t → orders_within mk0 t.
Proof.
  intros Hsame Ht o (symbol & m & Hm & Hid)%Ht.
  destruct (same_catalog_back mk0 mk symbol m Hsame Hm) as (m0 & Hm0 & _ & Hperp & Hspot & _).
  exists symbol, m0. split; [done|]. by rewrite <- Hperp, <- Hspot.
Qed.

Lemma catalog_wf_same_catalog mk0 mk : catalog_wf mk0 → same_catalog mk0 mk → catalog_wf mk.
Proof.
  intros Hwf Hsame key m Hm.
  destruct (same_catalog_back mk0 mk key m Hsame Hm) as (m0 & Hm0 & Hsym & _).
  rewrite Hsym. by apply Hwf.
Qed.

Lemma consider_all_effect opportunities : ∀ st,
  let st' := consider_all py_str exchange now opportunities st in
  markets st' = markets st ∧
  (∃ es, trace st' = trace st ++ es ∧ sleeps es = [] ∧ orders_within (markets st) es) ∧
  (catalog_wf (markets st) →
   dom (active_positions st') ⊆ dom (active_positions st) ∪ dom (markets st)).
Proof.
  induction opportunities as [|opp opportunities IH]; intros st; simpl.
  - split; [done|]. split; [|set_solver]. exists []. rewrite app_nil_r.
    do 2 (split; [done|]). apply orders_within_nil.
  - destruct (consider_effect opp st) as (Hmk & (es1 & Htrace1 & Hsleeps1 & Horders1) & Hdom1).
    destruct (IH (consider py_str exchange now opp st))
      as (Hmk2 & (es2 & Htrace2 & Hsleeps2 & Horders2) & Hdom2).
    simpl in *. rewrite Hmk in *. split; [done|]. split.
    + exists (es1 ++ es2). rewrite Htrace2, Htrace1, <- app_assoc. split; [done|].
      split; [by rewrite sleeps_app, Hsleeps1, Hsleeps2|].
      apply orders_within_app; [|done]. intros o Ho. destruct (Horders1 o Ho) as (m & ? & ?). eauto.
    + intros Hwf. specialize (Hdom1 Hwf). specialize (Hdom2 Hwf). set_solver.
Qed.

Lemma get_funding_opportunities_effect response st :
  let r := get_funding_opportunities py_float sort_order response st in
  active_positions r.2 = active_positions st ∧
  same_catalog (markets st) (markets r.2) ∧
  ∃ es, trace r.2 = trace st ++ es ∧ sleeps es = [] ∧ posts es = [].
Proof.
  simpl. unfold get_funding_opportunities. destruct response as [contexts|]; simpl.
  - pose proof (scan_contexts_dom py_float (universe contexts) (asset_ctxs contexts) 0
                  (markets st) []) as Hdom.
    pose proof (scan_contexts_same_instrument py_float (universe contexts)
                  (asset_ctxs contexts) 0 (markets st) []) as Hsame.
    destruct (scan_contexts _ _ _ _ _ _) as [[opportunities|] mk]; simpl in *.
    + split; [done|]. split; [by split|]. exists []. by rewrite app_nil_r.
    + split; [done|]. split; [by split|]. by eexists.
  - split; [done|]. split; [apply same_catalog_refl|].
    exists [Log ERROR MsgRequestFailed; Log ERROR MsgFetchFailed]. by rewrite <- app_assoc.
Qed.

Lemma log_entries_silent (opportunities : list Opp.t) : ∀ st,
  let st' := foldl (λ st opp, log INFO (MsgTopEntry (Opp.symbol opp) (Opp.funding_rate opp)) st)
                   st opportunities in
  ∃ es, trace st' = trace st ++ es ∧ sleeps es = [] ∧ posts es = [].
Proof.
  induction opportunities as [|opp opportunities IH]; intros st; simpl.
  - exists []. by rewrite app_nil_r.
  - destruct (IH (log INFO (MsgTopEntry (Opp.symbol opp) (Opp.funding_rate opp)) st))
      as (es & -> & Hsleeps & Hposts). simpl.
    eexists (_ :: es). rewrite <- app_assoc. by simpl.
Qed.

Lemma cycle_effect response st :
  let st' := cycle py_float sort_order py_str exchange now response st in
  same_catalog (markets st) (markets st') ∧
  (∃ es, trace st' = trace st ++ es ++ [Sleep 60] ∧ sleeps es = [] ∧
         orders_within (markets st) es) ∧
  (catalog_wf (markets st) →
   dom (active_positions st') ⊆ dom (active_positions st) ∪ dom (markets st)).
Proof.
  simpl. unfold cycle.
  destruct (get_funding_opportunities_effect response st)
    as (Hap & Hsame & es1 & Htrace1 & Hsleeps1 & Hposts1).
  destruct (get_funding_opportunities py_float sort_order response st) as [opportunities st1].
  simpl in *. destruct opportunities as [|opp opportunities].
  - simpl. split; [done|]. split; [|rewrite Hap; set_solver].
    exists (es1 ++ [Log INFO MsgNoOpportunities]). rewrite Htrace1, <- !app_assoc.
    split; [done|]. split; [by rewrite sleeps_app, Hsleeps1|].
    apply orders_within_silent. by rewrite posts_app, Hposts1.
  - set (opps := opp :: opportunities).
    destruct (log_entries_quiet (take 5 opps) (log INFO MsgTop st1))
      as (Hmk2 & Hap2 & _ & _).
    destruct (log_entries_silent (take 5 opps) (log INFO MsgTop st1))
      as (es2 & Htrace2 & Hsleeps2 & Hposts2).
    set (st2 := foldl _ _ _) in *. simpl in Hmk2, Hap2, Htrace2.
    destruct (consider_all_effect opps st2)
      as (Hmk3 & (es3 & Htrace3 & Hsleeps3 & Horders3) & Hdom3).
    simpl in *. rewrite Hmk3, Hmk2. split; [done|]. split.
    + exists (es1 ++ Log INFO MsgTop :: es2 ++ es3).
      rewrite Htrace3, Htrace2, Htrace1, <- !app_assoc. simpl. rewrite <- !app_assoc.
      split; [done|]. split.
      * rewrite sleeps_app. simpl. by rewrite sleeps_app, Hsleeps1, Hsleeps2, Hsleeps3.
      * apply orders_within_app; [by apply orders_within_silent|].
        change (Log INFO MsgTop :: es2 ++ es3) with ([Log INFO MsgTop] ++ es2 ++ es3).
        apply orders_within_app; [by apply orders_within_silent|].
        apply orders_within_app; [by apply orders_within_silent|].
        eapply orders_within_back; [exact Hsame|]. by rewrite <- Hmk2.
    + intros Hwf. rewrite Hmk2 in Hdom3.
      specialize (Hdom3 (catalog_wf_same_catalog _ _ Hwf Hsame)).
      rewrite Hap2, Hap in Hdom3. destruct Hsame as [Hdom _]. rewrite Hdom in Hdom3. done.
Qed.

(** X10. Every iteration of the loop sleeps once, for 60 seconds, as the
    last thing it does, also when it finds no opportunity and also when a
    hedge fails: after as many iterations as the quote source has answers,
    the trace holds that many more sleeps of 60 seconds. *)
Theorem one_sleep_per_cycle feed st :
  sleeps (trace (main_loop py_float sort_order py_str exchange now feed st)) =
    sleeps (trace st) ++ replicate (length feed) 60 ∧
  (∀ response,
     ∃ es, trace (cycle py_float sort_order py_str exchange now response st) = trace st ++ es ++ [Sleep 60] ∧
           sleeps es = []).
Proof.
  split.
  - revert st. unfold main_loop. induction feed as [|response feed IH]; intros st; simpl.
    + by rewrite app_nil_r.
    + rewrite IH.
      destruct (cycle_effect response st) as (_ & (es & -> & Hsleeps & _) & _).
      rewrite !sleeps_app, Hsleeps. simpl. by rewrite <- app_assoc.
  - intros response.
    destruct (cycle_effect response st) as (_ & (es & Htrace & Hsleeps & _) & _). eauto.
Qed.

Lemma main_loop_effect feed : ∀ st,
  let st' := main_loop py_float sort_order py_str exchange now feed st in
  catalog_wf (markets st) →
  dom (active_positions st) ⊆ dom (markets st) →
  orders_within (markets st) (trace st) →
  same_catalog (markets st) (markets st') ∧
  dom (active_positions st') ⊆ dom (markets st') ∧
  orders_within (markets st) (trace st').
Proof.
  induction feed as [|response feed IH]; intros st; simpl; intros Hwf Hledger Horders.
  - split; [apply same_catalog_refl|done].
  - destruct (cycle_effect response st)
      as (Hsame & (es & Htrace & Hsleeps & Horders1) & Hdom).
    set (st1 := cycle py_float sort_order py_str exchange now response st) in *.
    assert (dom (markets st1) = dom (markets st)) as Hkeys by apply Hsame.
    destruct (IH st1) as (Hsame' & Hledger' & Horders').
    + by eapply catalog_wf_same_catalog.
    + specialize (Hdom Hwf). rewrite Hkeys. set_solver.
    + eapply orders_within_same_catalog; [exact Hsame|]. rewrite Htrace.
      apply orders_within_app; [done|]. apply orders_within_app; [done|].
      by apply orders_within_silent.
    + split; [by eapply same_catalog_trans|]. split; [done|].
      by eapply orders_within_back.
Qed.

(** X13. In every state the loop reaches from a new bot, the catalog has
    the keys it was built with and every market has kept its symbol, its
    identifiers and its size precision; the ledger holds positions for
    symbols of the catalog only. *)
Theorem ledger_within_catalog min_rate usd slippage perps spots feed :
  let st :=
    main_loop py_float sort_order py_str exchange now feed (new_bot min_rate usd slippage perps spots) in
  dom (markets st) = dom (initialize_markets perps spots) ∧
  (∀ symbol m, initialize_markets perps spots !! symbol = Some m →
     ∃ m', markets st !! symbol = Some m' ∧ same_instrument m m') ∧
  dom (active_positions st) ⊆ dom (markets st).
Proof.
  simpl.
  destruct (main_loop_effect feed (new_bot min_rate usd slippage perps spots))
    as ([Hdom Hall] & Hledger & _); simpl.
  - apply initialize_markets_wf.
  - rewrite dom_empty_L. set_solver.
  - apply orders_within_silent. done.
  - done.
Qed.

(** X14. In every state the loop reaches from a new bot, every order it has
    submitted is for the spot or the perpetual identifier of a market of
    the catalog it was built with. *)
Theorem orders_only_for_catalog_instruments min_rate usd slippage perps spots feed o :
  o ∈ posts (trace (main_loop py_float sort_order py_str exchange now feed
                      (new_bot min_rate usd slippage perps spots))) →
  ∃ symbol m,
    initialize_markets perps spots !! symbol = Some m ∧
    (Order.a o = Market.spot_asset_id m ∨ Order.a o = Market.perp_asset_id m).
Proof.
  destruct (main_loop_effect feed (new_bot min_rate usd slippage perps spots))
    as (_ & _ & Horders); simpl.
  - apply initialize_markets_wf.
  - rewrite dom_empty_L. set_solver.
  - apply orders_within_silent. done.
  - apply Horders.
Qed.
End ControlEffects.

(** ** Control Loop: the ledger only grows *)

Section LedgerGrowth.
Context (py_float : string → option float) (sort_order : list float → list nat)
        (py_str : float → string)
        (exchange : list Order.t → Order.t → option Json) (now : list Event → Z).

Lemma consider_keeps_positions opp st symbol p :
  loop_invariant st → Opp.market opp = Opp.symbol opp →
  active_positions st !! symbol = Some p →
  active_positions (consider py_str exchange now opp st) !! symbol = Some p.
Proof.
  intros Hinv Href Hp. unfold consider.
  destruct (_ <=? _)%float; [|done].
  destruct (active_positions st !! Opp.symbol opp) eqn:Hheld; [done|].
  pose proof (execute_funding_arb_effect py_str exchange now (Opp.market opp)
                (Opp.funding_rate opp)
                (log INFO (MsgFound (Opp.symbol opp) (Opp.funding_rate opp)) st))
    as (_ & _ & es & _ & _ & Hres).
  simpl in Hres.
  destruct (execute_funding_arb _ _ _ _ _ _) as [[] st2]; simpl in *.
  - destruct Hres as (m & position & Hm & _ & ->).
    apply (inv_catalog _ Hinv) in Hm. rewrite Hm, Href.
    rewrite lookup_insert_ne; [done|]. intros <-. congruence.
  - destruct Hres as [_ ->]. done.
Qed.

Lemma consider_all_keeps_positions opportunities symbol p : ∀ st,
  loop_invariant st → Forall (λ o, Opp.market o = Opp.symbol o) opportunities →
  active_positions st !! symbol = Some p →
  active_positions (consider_all py_str exchange now opportunities st) !! symbol = Some p.
Proof.
  induction opportunities as [|opp opportunities IH]; intros st Hinv Hrefs Hp; simpl; [done|].
  apply Forall_cons in Hrefs as [Href Hrefs]. apply IH; [|done|].
  - by apply (consider_invariant py_float).
  - by apply consider_keeps_positions.
Qed.

Lemma cycle_keeps_positions response st symbol p :
  loop_invariant st →
  active_positions st !! symbol = Some p →
  active_positions (cycle py_float sort_order py_str exchange now response st) !! symbol = Some p.
Proof.
  intros Hinv Hp. unfold cycle.
  destruct (get_funding_opportunities_invariant py_float sort_order response st Hinv)
    as (Hinv1 & _ & Hrefs).
  destruct (get_funding_opportunities_effect py_float sort_order response st) as (Hap & _ & _).
  destruct (get_funding_opportunities py_float sort_order response st) as [opportunities st1].
  simpl in *. destruct opportunities as [|opp opportunities]; simpl; [by rewrite Hap|].
  set (opps := opp :: opportunities) in *.
  destruct (log_entries_quiet (take 5 opps) (log INFO MsgTop st1))
    as (Hmk2 & Hap2 & _ & es & Htrace & Hfound & Hopened).
  set (st2 := foldl _ _ _) in *. simpl in Hmk2, Hap2, Htrace.
  change (active_positions (consider_all py_str exchange now opps st2) !! symbol = Some p).
  apply consider_all_keeps_positions; [|exact Hrefs|by rewrite Hap2, Hap].
  apply (loop_invariant_quiet st1 _ (Log INFO MsgTop :: es)); try done.
  - rewrite Hmk2. apply Hinv1.
  - rewrite Htrace. by rewrite <- app_assoc.
Qed.

Lemma main_loop_keeps_positions feed symbol p : ∀ st,
  loop_invariant st →
  active_positions st !! symbol = Some p →
  active_positions (main_loop py_float sort_order py_str exchange now feed st) !! symbol = Some p.
Proof.
  induction feed as [|response feed IH]; intros st Hinv Hp; simpl; [done|].
  apply IH; [by apply cycle_invariant|by apply cycle_keeps_positions].
Qed.

(** X12. A position in the ledger of a state the loop reaches from a new
    bot is in the ledger of every later state, as it was recorded: no
    iteration removes or overwrites a position. *)
Theorem positions_are_kept min_rate usd slippage perps spots feed later symbol p :
  let bot := new_bot min_rate usd slippage perps spots in
  active_positions (main_loop py_float sort_order py_str exchange now feed bot) !! symbol = Some p →
  active_positions (main_loop py_float sort_order py_str exchange now (feed ++ later) bot) !! symbol
    = Some p.
Proof.
  simpl. intros Hp. unfold main_loop. rewrite foldl_app.
  apply main_loop_keeps_positions; [|done].
  apply main_loop_invariant, new_bot_invariant.
Qed.
End LedgerGrowth.

(** * The scenarios, run *)

(** The market of the one-market catalog after a refresh at 0.001 per
    period, and the amount of its hedge. *)
Lemma btc_refreshed_market :
  markets (btc_refreshed "0.001") !! "BTC"%string
    = Some (Market.make "BTC" 0 10005 36.5 50000 3) ∧
  hedge_amount (btc_refreshed "0.001") (Market.make "BTC" 0 10005 36.5 50000 3)
    = Some (0.02%float, "0.020"%string).
Proof. split; by vm_compute. Qed.

(** C1, run: the exchange rejects the spot order. One order, no position,
    failure. *)
Lemma rejected_spot_order_aborts :
  let st := btc_refreshed "0.001" in
  let r := execute_funding_arb scenario_str exchange_error scenario_now "BTC" 36.5 st in
  new_posts st r.2 = [Order.make 10005 true "50049.99999999999" "0.020" false "Gtc"] ∧
  r.1 = false ∧ active_positions r.2 = active_positions st.
Proof.
  destruct (position_recorded_only_when_both_legs_accepted scenario_str exchange_error
              scenario_now "BTC" 36.5 (btc_refreshed "0.001")) as (_ & Hrejected & _).
  apply (Hrejected (Market.make "BTC" 0 10005 36.5 50000 3) 0.02%float "0.020"%string);
    by vm_compute.
Defined.

(** C2, run: the spot order is accepted and the perpetual order gets no
    answer. Two orders, no emergency close, failure. *)
Lemma perp_down_leaves_spot_open :
  let st := btc_refreshed "0.001" in
  let r := execute_funding_arb scenario_str exchange_first_then_down scenario_now "BTC" 36.5 st in
  r.1 = false ∧ active_positions r.2 = active_positions st ∧
  new_posts st r.2 =
    [Order.make 10005 true "50049.99999999999" "0.020" false "Gtc";
     Order.make 0 false "49950.0" "0.020" false "Gtc"].
Proof.
  apply (perp_failure_unwinds_only_on_rejection scenario_str exchange_first_then_down
           scenario_now "BTC" 36.5 (btc_refreshed "0.001")
           (Market.make "BTC" 0 10005 36.5 50000 3) 0.02%float "0.020"%string);
    by vm_compute.
Defined.

(** The scenario of the specification: the spot order is accepted and the
    perpetual order is answered with status "error". One emergency close
    follows, a sale of the same amount at price "0"; no position, failure. *)
Lemma rejected_perp_order_unwinds :
  let st := btc_refreshed "0.001" in
  let r := execute_funding_arb scenario_str exchange_first_then_error scenario_now "BTC" 36.5 st in
  r.1 = false ∧ active_positions r.2 = active_positions st ∧
  new_posts st r.2 =
    [Order.make 10005 true "50049.99999999999" "0.020" false "Gtc";
     Order.make 0 false "49950.0" "0.020" false "Gtc";
     Order.make 10005 false "0" "0.020" false "Gtc"].
Proof. by vm_compute. Qed.

(** C3 (as stated, refuted). The snapshot quotes -0.001 per period, a rate
    of -36.5: the bot buys the spot asset and sells the perpetual, as for a
    positive rate; it neither sells the spot asset nor buys the perpetual. *)
Lemma negative_funding_keeps_direction :
  let st := btc_refreshed "-0.001" in
  let r := execute_funding_arb scenario_str exchange_ok scenario_now "BTC" (-36.5) st in
  Opp.funding_rate <$> (get_funding_opportunities scenario_float scenario_order (btc_snapshot "-0.001") btc_bot).1
    = [(-36.5)%float] ∧
  (-36.5 <? 0)%float = true ∧
  new_posts st r.2 =
    [Order.make 10005 true "50049.99999999999" "0.020" false "Gtc";
     Order.make 0 false "49950.0" "0.020" false "Gtc"] ∧
  ¬ ∃ o, o ∈ new_posts st r.2 ∧
         ((Order.a o = 10005 ∧ Order.b o = false) ∨ (Order.a o = 0 ∧ Order.b o = true)).
Proof.
  simpl. split; [by vm_compute|]. split; [by vm_compute|].
  assert (new_posts (btc_refreshed "-0.001")
            (execute_funding_arb scenario_str exchange_ok scenario_now "BTC" (-36.5)
               (btc_refreshed "-0.001")).2 =
          [Order.make 10005 true "50049.99999999999" "0.020" false "Gtc";
           Order.make 0 false "49950.0" "0.020" false "Gtc"]) as -> by by vm_compute.
  split; [done|]. intros (o & Hin & Hdir).
  apply elem_of_cons in Hin as [->|Hin]; [simpl in Hdir; naive_solver|].
  apply elem_of_cons in Hin as [->|Hin]; [simpl in Hdir; naive_solver|].
  by apply elem_of_nil in Hin.
Qed.

(** C3, run: the orders for a rate of -36.5 are those for a rate of 36.5. *)
Lemma negative_funding_same_orders :
  let st := btc_refreshed "-0.001" in
  new_posts st (execute_funding_arb scenario_str exchange_ok scenario_now "BTC" 36.5 st).2 =
  new_posts st (execute_funding_arb scenario_str exchange_ok scenario_now "BTC" (-36.5) st).2.
Proof.
  apply (hedge_direction_ignores_funding_sign scenario_str exchange_ok scenario_now
           "BTC" (-36.5) (btc_refreshed "-0.001")).
Defined.

(** C7, run: notional 1000, mark price 50000, three decimals. The quotient
    is the float of mantissa 5764607523034235 and exponent -58. *)
Lemma btc_hedge_orders :
  let st := btc_refreshed "0.001" in
  let r := execute_funding_arb scenario_str exchange_ok scenario_now "BTC" 36.5 st in
  (0 <? 50000)%float = true ∧
  ∃ formatted_amount q,
    format_fixed (1000 / 50000) 3 = Some formatted_amount ∧
    numeral_of false q 3 formatted_amount ∧
    Z.abs (2 * (q * scaled_den (-58) - scaled_num 5764607523034235 (-58) 3))
      ≤ scaled_den (-58) ∧
    ∃ rest,
      new_posts st r.2 =
        Order.make 10005 true (scenario_str (50000 * (1 + 0.001))) formatted_amount false "Gtc"
        :: rest.
Proof.
  split; [by vm_compute|].
  destruct (hedge_quantity_and_limit_prices scenario_str exchange_ok scenario_now "BTC" 36.5
              (btc_refreshed "0.001") (Market.make "BTC" 0 10005 36.5 50000 3))
    as (formatted_amount & Hfmt & Hfinite & _ & (rest & Hposts & _) & _).
  - by vm_compute.
  - by vm_compute.
  - by vm_compute.
  - destruct (Hfinite false 5764607523034235%positive (-58)) as (q & Hnumeral & _ & Hnear & _);
      [by vm_compute|].
    exists formatted_amount, q. split; [exact Hfmt|]. split; [exact Hnumeral|].
    split; [exact Hnear|]. by exists rest.
Defined.

(** C8 (as stated, refuted). The snapshot quotes N, a symbol of the
    catalog, at a funding rate that is not a number in text, and then A at
    0.001 per period. The loop raises at the first entry: the call returns
    no opportunity and the market of A keeps the rate 0, not 36.5. *)
Lemma unreadable_entry_stops_refresh :
  let r :=
    get_funding_opportunities scenario_float scenario_order
      (snapshot [("N", "oops", "50000"); ("A", "0.001", "50000")]%string) abn_bot in
  is_Some (markets abn_bot !! "A"%string) ∧
  scenario_float "0.001" = Some 0.001%float ∧
  (0.001 * 365 * 100)%float = 36.5%float ∧
  r.1 = [] ∧
  Market.funding_rate <$> markets r.2 !! "A"%string = Some 0%float ∧
  Market.mark_price <$> markets r.2 !! "A"%string = Some 0%float.
Proof.
  simpl. split; [by vm_compute; eexists|]. repeat split; by vm_compute.
Qed.

(** C8, run: the snapshot quotes X, which is not in the catalog, then A at
    0.001, B at -0.001 and A again at 0.002 per period, all at 50000. The
    market of A carries the rate 73 of its last entry, the opportunity of B
    has the rate -36.5, and there is no market X. *)
Lemma abn_refresh_annualized :
  let contexts :=
    contexts_of [("X", "0.001", "50000"); ("A", "0.001", "50000");
                 ("B", "-0.001", "50000"); ("A", "0.002", "50000")]%string in
  let r := get_funding_opportunities scenario_float scenario_order (Some contexts) abn_bot in
  readable_upto scenario_float (markets abn_bot) contexts 4 ∧
  markets r.2 !! "A"%string = Some (Market.make "A" 0 10001 73 50000 1) ∧
  Opp.make "B" (-36.5) 50000 "B" ∈ r.1 ∧
  markets r.2 !! "X"%string = None.
Proof.
  set (contexts := contexts_of [("X", "0.001", "50000"); ("A", "0.001", "50000");
                                ("B", "-0.001", "50000"); ("A", "0.002", "50000")]%string).
  cbv zeta.
  assert (readable_upto scenario_float (markets abn_bot) contexts 4) as Hread.
  { intros i Hi ctx Hctx.
    destruct i as [|[|[|[|i]]]]; [..|lia]; injection Hctx as <-;
      (eexists; split; [reflexivity|]); intros _; split; by eexists. }
  split; [exact Hread|].
  destruct (refresh_annualizes_in_place scenario_float scenario_order contexts abn_bot)
    as (Hentries & _ & Hdom & _).
  split; [|split].
  - destruct (Hentries 3%nat (Ctx.make "0.002" "50000") "A"%string (Market.new "A" 0 10001 1))
      as (raw & px & Hraw & Hpx & _ & Hfinal & _); [done|done|by vm_compute|..].
    { intros i Hi. apply Hread. lia. }
    injection Hraw as <-. injection Hpx as <-. apply Hfinal.
    intros j Hj. simpl in Hj. lia.
  - destruct (Hentries 2%nat (Ctx.make "-0.001" "50000") "B"%string (Market.new "B" 2 10003 1))
      as (raw & px & Hraw & Hpx & _ & _ & Hin); [done|done|by vm_compute|..].
    { intros i Hi. apply Hread. lia. }
    injection Hraw as <-. injection Hpx as <-. apply Hin, Hread.
  - apply not_elem_of_dom. rewrite Hdom. apply not_elem_of_dom. by vm_compute.
Defined.

(** C10, run: A at 0.001, B at -0.001 and N at 0.002 per period. N, at 73,
    comes first; A and B, both at 36.5 in absolute value, keep the order of
    the snapshot. *)
Lemma abn_ranking_descending :
  let response :=
    snapshot [("A", "0.001", "50000"); ("B", "-0.001", "50000");
              ("N", "0.002", "50000")]%string in
  let ranked := (get_funding_opportunities scenario_float scenario_order response abn_bot).1 in
  rates_are_numbers scenario_float response ∧
  Opp.symbol <$> ranked = ["N"; "A"; "B"]%string ∧
  non_increasing abs_rate ranked.
Proof.
  set (response := snapshot [("A", "0.001", "50000"); ("B", "-0.001", "50000");
                             ("N", "0.002", "50000")]%string).
  cbv zeta.
  assert (rates_are_numbers scenario_float response) as Hnum.
  { intros contexts ctx raw [= <-] Hin Hraw. simpl in Hin.
    repeat (apply elem_of_cons in Hin as [->|Hin]; [injection Hraw as <-; by vm_compute|]).
    by apply elem_of_nil in Hin. }
  split; [exact Hnum|]. split; [by vm_compute|].
  destruct (ranking_descending_when_rates_are_numbers scenario_float scenario_order
              response abn_bot) as (_ & _ & Hsorted).
  by apply Hsorted.
Defined.

(** C9, run: the quote source does not answer. *)
Lemma unanswered_fetch_skips_cycle :
  let st' := cycle scenario_float scenario_order scenario_str exchange_ok scenario_now None btc_bot in
  (get_funding_opportunities scenario_float scenario_order None btc_bot).1 = [] ∧
  trace st' =
    trace btc_bot ++
    [Log ERROR MsgRequestFailed; Log ERROR MsgFetchFailed; Log INFO MsgNoOpportunities; Sleep 60] ∧
  posts (trace st') = posts (trace btc_bot) ∧
  found (trace st') = found (trace btc_bot) ∧
  active_positions st' = active_positions btc_bot.
Proof.
  apply (failed_fetch_skips_cycle scenario_float scenario_order scenario_str exchange_ok
           scenario_now None btc_bot I).
Defined.

(** C9, run: a quote that is not a number in text. *)
Lemma unparsable_quote_skips_cycle :
  (get_funding_opportunities scenario_float scenario_order (btc_snapshot "oops") btc_bot).1 = [] ∧
  posts (trace (cycle scenario_float scenario_order scenario_str exchange_ok scenario_now
                  (btc_snapshot "oops") btc_bot)) = [].
Proof. split; by vm_compute. Qed.

(** X1, run: the catalog of one market. *)
Lemma btc_perp_id_identifies :
  0 ≤ 0 < Z.of_nat (length btc_perps) ∧ ((0:Z) = 0 → "BTC"%string = "BTC"%string).
Proof.
  apply (perp_ids_identify_markets btc_perps btc_spots "BTC" "BTC"
           (Market.new "BTC" 0 10005 3) (Market.new "BTC" 0 10005 3)); by vm_compute.
Defined.

(** X2, run: the catalog of one market. *)
Lemma btc_ids_apart : (0:Z) < 10000 ≤ 10005.
Proof.
  apply (spot_ids_apart_from_perp_ids btc_perps btc_spots "BTC" "BTC"
           (Market.new "BTC" 0 10005 3) (Market.new "BTC" 0 10005 3)).
  - simpl. lia.
  - repeat constructor; simpl; lia.
  - by vm_compute.
  - by vm_compute.
Defined.

(** X7, run: the hedge of the scenario, both orders accepted. *)
Lemma btc_position_recorded :
  let st := btc_refreshed "0.001" in
  let r := execute_funding_arb scenario_str exchange_ok scenario_now "BTC" 36.5 st in
  ∃ m p,
    markets st !! "BTC"%string = Some m ∧
    active_positions r.2 !! Market.symbol m = Some p ∧
    Position.funding_rate p = 36.5%float ∧
    Position.mark_price p = Market.mark_price m ∧
    Position.amount p = (position_size_usd st / Market.mark_price m)%float ∧
    Position.market p = "BTC"%string ∧
    ∀ key, key ≠ Market.symbol m → active_positions r.2 !! key = active_positions st !! key.
Proof.
  apply (recorded_position_fields scenario_str exchange_ok scenario_now "BTC" 36.5
           (btc_refreshed "0.001")).
  by vm_compute.
Defined.

(** X5, run: one context and no name. *)
Lemma btc_short_universe :
  (get_funding_opportunities scenario_float scenario_order
     (Some {| universe := []; asset_ctxs := [Ctx.make "0.001" "50000"] |}) btc_bot).1 = [] ∧
  fetch_fails scenario_float
    (Some {| universe := []; asset_ctxs := [Ctx.make "0.001" "50000"] |}) btc_bot.
Proof.
  apply (short_universe_fails_fetch scenario_float scenario_order
           {| universe := []; asset_ctxs := [Ctx.make "0.001" "50000"] |} btc_bot).
  simpl. lia.
Defined.

(** X6, run: the second of three contexts quotes a funding rate that is not
    a number in text; the market of the first one stays refreshed. *)
Lemma abn_refresh_not_rolled_back :
  let r :=
    get_funding_opportunities scenario_float scenario_order
      (Some {| universe := ["A"; "N"; "B"]%string;
               asset_ctxs := [Ctx.make "0.001" "50000"] ++
                             Ctx.make "oops" "50000" :: [Ctx.make "0.002" "50000"] |})
      abn_bot in
  r.1 = [] ∧
  markets r.2 =
    <["A"%string := Market.make "A" 0 10001 36.5 50000 1]> (markets abn_bot).
Proof.
  apply (failed_refresh_keeps_earlier_quotes scenario_float scenario_order ["A"; "N"; "B"]%string
           [Ctx.make "0.001" "50000"] (Ctx.make "oops" "50000") [Ctx.make "0.002" "50000"]
           abn_bot [Opp.make "A" 36.5 50000 "A"]
           (<["A"%string := Market.make "A" 0 10001 36.5 50000 1]> (markets abn_bot))
           "N" (Market.make "N" 1 10002 0 0 1)); by vm_compute.
Defined.

(** X12, run: the position opened in the first iteration is there after two
    more. *)
Lemma btc_position_is_kept :
  active_positions
    (main_loop scenario_float scenario_order scenario_str exchange_ok scenario_now
       ([btc_snapshot "0.001"] ++ [btc_snapshot "0.002"; None]) btc_bot) !! "BTC"%string
  = Some (Position.make 0 36.5 50000 0.02 "BTC").
Proof.
  apply (positions_are_kept scenario_float scenario_order scenario_str exchange_ok scenario_now
           0.05 1000 0.001 btc_perps btc_spots [btc_snapshot "0.001"]
           [btc_snapshot "0.002"; None] "BTC" (Position.make 0 36.5 50000 0.02 "BTC")).
  by vm_compute.
Defined.

(** X11, run: an opportunity with a NaN rate. *)
Lemma nan_opportunity_is_skipped :
  consider_all scenario_str exchange_ok scenario_now [Opp.make "N" nan 50000 "N"] abn_bot
    = abn_bot.
Proof.
  apply (nan_is_never_traded scenario_str exchange_ok scenario_now
           [Opp.make "N" nan 50000 "N"] abn_bot).
  right. by repeat constructor.
Defined.

(** X14, run: the spot order of the scenario. *)
Lemma btc_orders_are_catalog_orders :
  ∃ symbol m,
    initialize_markets btc_perps btc_spots !! symbol = Some m ∧
    (10005 = Market.spot_asset_id m ∨ 10005 = Market.perp_asset_id m).
Proof.
  apply (orders_only_for_catalog_instruments scenario_float scenario_order scenario_str exchange_ok
           scenario_now 0.05 1000 0.001 btc_perps btc_spots [btc_snapshot "0.001"]
           (Order.make 10005 true "50049.99999999999" "0.020" false "Gtc")).
  vm_compute. by left.
Defined.
